(** * MySQL++ template queries: parse / pprepare / proc and the result calls

    A shallow embedding of the [Query] class of MySQL++ as it appears in
    three revisions of [query.cpp] kept in the repository:

    - [src/unnamed/part_001]      (the [DBDriver]-based revision, module [V3]),
    - [src/lib/query.cpp]         (the [SQLString]-based revision, module [V2]),
    - [src/trunk/lib/query.cpp]   (the oldest revision, module [Trunk];
      [src/unnamed/part_005] is the same code with renamed members).

    Strings are [String.string] (a [std::string] or a NUL-terminated
    [char*] read through [cur]/[adv]); [signed char] is a [Z] with its
    wrap-around written out; vectors are lists read with stdpp's lookup
    and written with stdpp's insert; [std::map] is a [gmap]. *)

From Stdlib Require Import ZArith Lia Ascii String List Bool.
From stdpp Require Import base list strings gmap.

Local Open Scope Z_scope.

(** ** C characters and strings *)

Definition NUL : ascii := "000"%char.

Definition code (c : ascii) : Z := Z.of_N (N_of_ascii c).

(** [*s] for a pointer into a NUL-terminated copy of the text. *)
Definition cur (s : string) : ascii :=
  match s with
  | EmptyString => NUL
  | String c _ => c
  end.

(** [s++]; the source only advances past a character that is not NUL. *)
Definition adv (s : string) : string :=
  match s with
  | EmptyString => EmptyString
  | String _ t => t
  end.

(** [str += c] *)
Definition push_char (str : string) (c : ascii) : string :=
  str +:+ String c EmptyString.

Definition is_char (c d : ascii) : bool := Ascii.eqb c d.

(** [isdigit], [isalnum] in the C locale. *)
Definition isdigit (c : ascii) : bool :=
  (48 <=? code c) && (code c <=? 57).

Definition isalpha (c : ascii) : bool :=
  ((65 <=? code c) && (code c <=? 90)) || ((97 <=? code c) && (code c <=? 122)).

Definition isalnum (c : ascii) : bool := isalpha c || isdigit c.

(** [atoi] on a buffer of decimal digits: the value of the leading digits. *)
Fixpoint atoi_from (acc : Z) (s : string) : Z :=
  match s with
  | EmptyString => acc
  | String c t =>
      if isdigit c then atoi_from (10 * acc + (code c - 48)) t else acc
  end.

Definition atoi (num : string) : Z := atoi_from 0 num.

(** Conversion of an [int] to [signed char]: kept modulo 2^8 in
    [-128, 127], as every compiler the library supports does. *)
Definition to_schar (z : Z) : Z := (z + 128) mod 256 - 128.

(** A [char*] handed to [std::string]: the text up to the first NUL. *)
Fixpoint c_str (s : string) : string :=
  match s with
  | EmptyString => EmptyString
  | String c t => if is_char c NUL then EmptyString else String c (c_str t)
  end.

(** ** Data model *)

(** [SQLParseElement]: the literal text before a placeholder, the option
    character and the placeholder position ([signed char], [-1] for the
    trailing literal). *)
Record SQLParseElement := mkElem {
  before : string;
  opt : ascii;
  num : Z
}.

(** [SQLQueryParms]: a vector of values and what [bound()] answers. *)
Record SQLQueryParms (V : Type) := mkParms {
  values : list V;
  bound : bool
}.
Arguments mkParms {V} _ _.
Arguments values {V} _.
Arguments bound {V} _.

(** The members of [Query] that parse, proc and the result calls use. *)
Record Query (V : Type) := mkQuery {
  sbuffer_ : string;
  parse_elems_ : list SQLParseElement;
  parsed_names_ : list string;
  parsed_nums_ : gmap string Z;
  template_defaults : SQLQueryParms V;
  throw_exceptions : bool;
  copacetic_ : bool
}.
Arguments mkQuery {V} _ _ _ _ _ _ _.
Arguments sbuffer_ {V} _.
Arguments parse_elems_ {V} _.
Arguments parsed_names_ {V} _.
Arguments parsed_nums_ {V} _.
Arguments template_defaults {V} _.
Arguments throw_exceptions {V} _.
Arguments copacetic_ {V} _.

Inductive Exn := BadQuery | BadParamCount | LockFailed | EndOfResultSets.

(** ** Query::parse *)

Section Parse.

(** The option characters a revision accepts after the digits. *)
Variable is_option_char : ascii -> bool.

(** The locals [s], [str] and the three members parse appends to. *)
Record ParseState := mkPS {
  ps_s : string;
  ps_str : string;
  ps_elems : list SQLParseElement;
  ps_names : list string;
  ps_nums : gmap string Z
}.

(** [for (; isalnum( *s) || *s == '_'; ++s) name += *s;] *)
Fixpoint scan_name (name : string) (s : string) : string * string :=
  match s with
  | EmptyString => (name, s)
  | String c t =>
      if isalnum c || is_char c "_"
      then scan_name (push_char name c) t
      else (name, s)
  end.

(** The position digits: one to three of them, copied into [num]. *)
Definition scan_digits (s : string) : string * string :=
  let d0 := cur s in
  let s := adv s in
  if isdigit (cur s) then
    let d1 := cur s in
    let s := adv s in
    if isdigit (cur s) then
      let d2 := cur s in
      let s := adv s in
      (String d0 (String d1 (String d2 EmptyString)), s)
    else (String d0 (String d1 EmptyString), s)
  else (String d0 EmptyString, s).

(** [if (n >= size) parsed_names_.insert(end, n + 1 - size,
    std::string()); parsed_names_[n] = name].
    For a negative [n] the vector is not resized and [parsed_names_[n]]
    is a write outside it: the behaviour of the source is undefined
    there, and there is no result. *)
Definition set_name (names : list string) (n : Z) (name : string)
  : option (list string) :=
  let names :=
    if Z.of_nat (length names) <=? n
    then names ++ replicate (Z.to_nat (n + 1) - length names)%nat EmptyString
    else names in
  if 0 <=? n then Some (<[Z.to_nat n := name]> names) else None.

(** One turn of [while ( *s)]; no result where the turn writes outside
    [parsed_names_]. *)
Definition parse_iter (st : ParseState) : option ParseState :=
  let s := ps_s st in
  if is_char (cur s) "%" then
    let s := adv s in
    if is_char (cur s) "%" then
      Some (mkPS (adv s) (push_char (ps_str st) (cur s))
                 (ps_elems st) (ps_names st) (ps_nums st))
    else if isdigit (cur s) then
      let '(digits, s) := scan_digits s in
      let n := to_schar (atoi digits) in
      let '(option, s) :=
        if is_option_char (cur s) then (cur s, adv s) else (" "%char, s) in
      let elems := ps_elems st ++ [mkElem (ps_str st) option n] in
      if is_char (cur s) ":" then
        let '(name, s) := scan_name EmptyString (adv s) in
        let s := if is_char (cur s) ":" then adv s else s in
        match set_name (ps_names st) n name with
        | Some names =>
            Some (mkPS s EmptyString elems names (<[name := n]> (ps_nums st)))
        | None => None
        end
      else Some (mkPS s EmptyString elems (ps_names st) (ps_nums st))
    else
      Some (mkPS s (push_char (ps_str st) "%")
                 (ps_elems st) (ps_names st) (ps_nums st))
  else
    Some (mkPS (adv s) (push_char (ps_str st) (cur s))
               (ps_elems st) (ps_names st) (ps_nums st)).

(** How the loop ends: at the NUL that ends the text, in a write
    outside [parsed_names_], or with the turns allowed here used up. *)
Inductive loop_end :=
  | at_NUL (st : ParseState)
  | out_of_bounds
  | out_of_fuel.

(** [while ( *s) { ... }]; every turn consumes a character, so
    [String.length s] turns are enough ([parse_loop_enough]). *)
Fixpoint parse_loop (fuel : nat) (st : ParseState) : loop_end :=
  if is_char (cur (ps_s st)) NUL then at_NUL st
  else match fuel with
       | O => out_of_fuel
       | S fuel' =>
           match parse_iter st with
           | Some st' => parse_loop fuel' st'
           | None => out_of_bounds
           end
       end.

(** [Query::parse()]: the query it leaves, or no result where the
    source writes outside [parsed_names_]. *)
Definition parse_with {V} (q : Query V) : option (Query V) :=
  let st0 := mkPS (sbuffer_ q) EmptyString (parse_elems_ q)
                  (parsed_names_ q) (parsed_nums_ q) in
  match parse_loop (String.length (sbuffer_ q)) st0 with
  | at_NUL st =>
      Some (mkQuery (sbuffer_ q)
              (ps_elems st ++ [mkElem (ps_str st) " " (-1)])
              (ps_names st) (ps_nums st)
              (template_defaults q) (throw_exceptions q) (copacetic_ q))
  | out_of_bounds | out_of_fuel => None
  end.

End Parse.

(** ** Query::proc, over the value type of a revision *)

(** What [pprepare] returns: a pointer to its argument [S] or to a new
    object that [proc] deletes after writing it. *)
Inductive prep_ret (V : Type) :=
  | same_object
  | new_object (ss : V).
Arguments same_object {V}.
Arguments new_object {V} _.

(** [*ss], given the argument as [pprepare] left it. *)
Definition pointee {V} (S' : V) (ss : prep_ret V) : V :=
  match ss with
  | same_object => S'
  | new_object t => t
  end.

(** [proc] takes its list by reference, and the list may be the query's
    own [template_defaults]: the memory holds the query and the caller's
    list, and a pointer says which list is meant. *)
Record Mem (V : Type) := mkMem {
  the_query : Query V;
  call_parms : SQLQueryParms V
}.
Arguments mkMem {V} _ _.
Arguments the_query {V} _.
Arguments call_parms {V} _.

Inductive parms_ptr := to_call_parms | to_template_defaults.

#[global] Instance parms_ptr_eq_dec : EqDecision parms_ptr.
Proof. solve_decision. Defined.

Definition with_sbuffer {V} (q : Query V) (b : string) : Query V :=
  mkQuery b (parse_elems_ q) (parsed_names_ q) (parsed_nums_ q)
          (template_defaults q) (throw_exceptions q) (copacetic_ q).

Definition with_defaults {V} (q : Query V) (d : SQLQueryParms V) : Query V :=
  mkQuery (sbuffer_ q) (parse_elems_ q) (parsed_names_ q) (parsed_nums_ q)
          d (throw_exceptions q) (copacetic_ q).

Definition with_exceptions {V} (q : Query V) (te : bool) : Query V :=
  mkQuery (sbuffer_ q) (parse_elems_ q) (parsed_names_ q) (parsed_nums_ q)
          (template_defaults q) te (copacetic_ q).

Definition set_value {V} (l : SQLQueryParms V) (n : nat) (v : V)
  : SQLQueryParms V :=
  mkParms (<[n := v]> (values l)) (bound l).

(** The text in [sbuffer_], and the memory with another text there. *)
Definition buf {V} (m : Mem V) : string := sbuffer_ (the_query m).

Definition with_buf {V} (m : Mem V) (b : string) : Mem V :=
  mkMem (with_sbuffer (the_query m) b) (call_parms m).

Section Proc.

Context {V : Type}.
Variable data : V -> string.
Variable pprepare : ascii -> V -> bool -> V * prep_ret V.

Definition deref (m : Mem V) (c : parms_ptr) : SQLQueryParms V :=
  match c with
  | to_call_parms => call_parms m
  | to_template_defaults => template_defaults (the_query m)
  end.

(** [( *c)[n] = v] *)
Definition store_value (m : Mem V) (c : parms_ptr) (n : nat) (v : V)
  : Mem V :=
  match c with
  | to_call_parms => mkMem (the_query m) (set_value (call_parms m) n v)
  | to_template_defaults =>
      mkMem (with_defaults (the_query m)
               (set_value (template_defaults (the_query m)) n v))
            (call_parms m)
  end.

(** [*this << text] *)
Definition write (m : Mem V) (text : string) : Mem V :=
  with_buf m (buf m +:+ text).

(** [sbuffer_.str] set to the empty text *)
Definition clear_sbuffer (m : Mem V) : Mem V :=
  with_buf m EmptyString.

(** The list a placeholder at position [n] is filled from. *)
Definition choose (m : Mem V) (p : parms_ptr) (n : nat) : option parms_ptr :=
  if (n <? length (values (deref m p)))%nat then Some p
  else if (n <? length (values (template_defaults (the_query m))))%nat
       then Some to_template_defaults
       else None.

(** The body of the [for] loop of [proc] for the element [i].
    [<< *ss] writes the bytes of the value: for [SQLString], which is a
    [std::string], by the standard insertion; the insertion operator of
    [SQLTypeAdapter] is not under src/ and is taken to do the same. *)
Definition proc_elem (p : parms_ptr) (i : SQLParseElement) (m : Mem V)
  : Mem V * option Exn :=
  let m := write m (before i) in
  if 0 <=? num i then
    let n := Z.to_nat (num i) in
    match choose m p n with
    | None => (write m " ERROR", Some BadParamCount)
    | Some c =>
        match values (deref m c) !! n with
        | None => (m, None) (* not reached: n is below the size of *c *)
        | Some param =>
            let '(param', ss) :=
              pprepare (opt i) param (bound (deref m c)) in
            let m := store_value m c n param' in
            (write m (data (pointee param' ss)), None)
        end
    end
  else (m, None).

Fixpoint proc_loop (p : parms_ptr) (elems : list SQLParseElement)
  (m : Mem V) : Mem V * option Exn :=
  match elems with
  | [] => (m, None)
  | i :: rest =>
      match proc_elem p i m with
      | (m', None) => proc_loop p rest m'
      | thrown => thrown
      end
  end.

Definition proc (p : parms_ptr) (m : Mem V) : Mem V * option Exn :=
  proc_loop p (parse_elems_ (the_query m)) (clear_sbuffer m).

(** [Query::str(SQLQueryParms& p)]: the text, or the exception. *)
Definition str (p : parms_ptr) (m : Mem V) : Mem V * (string + Exn) :=
  if bool_decide (parse_elems_ (the_query m) = []) then
    (m, inl (sbuffer_ (the_query m)))
  else
    match proc p m with
    | (m', None) => (m', inl (sbuffer_ (the_query m')))
    | (m', Some e) => (m', inr e)
    end.

End Proc.

(** ** Results and the driver's answers *)

(** A [MYSQL_RES*] that is not null. *)
Definition MYSQL_RES := nat.

(** [Result(res, throw_exceptions())] or the empty [Result()]. *)
Inductive Result :=
  | Result_of (res : MYSQL_RES) (te : bool)
  | Result_empty.

(** How a call ends: with a value or with an exception. *)
Inductive outcome (A : Type) :=
  | returns (a : A)
  | throws (e : Exn).
Arguments returns {A} _.
Arguments throws {A} _.

(** [Query::reset()] *)
Definition reset {V} (q : Query V) : Query V :=
  mkQuery EmptyString [] (parsed_names_ q) (parsed_nums_ q)
          (mkParms [] (bound (template_defaults q)))
          (throw_exceptions q) (copacetic_ q).

Definition with_copacetic {V} (q : Query V) (b : bool) : Query V :=
  mkQuery (sbuffer_ q) (parse_elems_ q) (parsed_names_ q) (parsed_nums_ q)
          (template_defaults q) (throw_exceptions q) b.

(** ** The DBDriver-based revision (src/unnamed/part_001) *)

Module V3.

(** [SQLTypeAdapter], by what [pprepare] asks of it: its bytes, whether
    its type is quoted and escaped in SQL, and the processed flag. *)
Record SQLTypeAdapter := mkSTA {
  data : string;
  quote_q : bool;
  escape_q : bool;
  is_processed : bool
}.

(** Modelled from the spec: the constructor [SQLTypeAdapter(const
    std::string&)] is not under src/; a value made from raw text is
    string-typed (quoted and escaped) and not yet processed. *)
Definition of_string (temp : string) : SQLTypeAdapter :=
  mkSTA temp true true false.

Definition set_processed (S : SQLTypeAdapter) : SQLTypeAdapter :=
  mkSTA (data S) (quote_q S) (escape_q S) true.

Section Driver.

(** [conn_->driver()->escape_string], as a function of the bytes. *)
Variable escape_string : string -> string.

Definition pprepare (option : ascii) (S : SQLTypeAdapter) (replace : bool)
  : SQLTypeAdapter * prep_ret SQLTypeAdapter :=
  if is_processed S then (S, same_object)
  else if is_char option "q" then
    let temp := if quote_q S then "'"%string else EmptyString in
    let temp :=
      if escape_q S then temp +:+ escape_string (data S)
      else temp +:+ data S in
    let temp := if quote_q S then temp +:+ "'" else temp in
    let ss := of_string temp in
    if replace then (set_processed ss, same_object)
    else (S, new_object ss)
  else if is_char option "Q" && quote_q S then
    let temp := ("'" +:+ data S) +:+ "'" in
    let ss := of_string temp in
    if replace then (set_processed ss, same_object)
    else (S, new_object ss)
  else
    if replace then (set_processed S, same_object)
    else (S, same_object).

Definition proc (p : parms_ptr) (m : Mem SQLTypeAdapter)
  : Mem SQLTypeAdapter * option Exn :=
  proc data pprepare p m.

Definition str (p : parms_ptr) (m : Mem SQLTypeAdapter)
  : Mem SQLTypeAdapter * (string + Exn) :=
  str data pprepare p m.

End Driver.

(** This revision accepts the option characters [q] and [Q]. *)
Definition is_option_char (c : ascii) : bool :=
  is_char c "q" || is_char c "Q".

Definition parse (q : Query SQLTypeAdapter) : option (Query SQLTypeAdapter) :=
  parse_with is_option_char q.

(** Modelled from the spec: the enumeration [DBDriver::nr_code] is not
    under src/; [next_result()] answers more, none or error. *)
Inductive nr_code := nr_more_results | nr_last_result | nr_error.

(** What the driver answers during one call. *)
Record DBDriver := mkDriver {
  execute : string -> bool;
  store_result : option MYSQL_RES;
  errnum : Z;
  next_result : nr_code
}.

(** Modelled from the spec: [DBDriver::result_empty()] is not under
    src/; the result is legitimately empty when the driver has no
    pending error code. *)
Definition result_empty (d : DBDriver) : bool := errnum d =? 0.

(** [Query::store(const char* str, size_t len)] *)
Definition store (d : DBDriver) (str : string) (q : Query SQLTypeAdapter)
  : Query SQLTypeAdapter * outcome Result :=
  let q := with_copacetic q (execute d str) in
  let q := if (length (parse_elems_ q) =? 0)%nat then reset q else q in
  let res := if copacetic_ q then store_result d else None in
  match res with
  | Some r => (q, returns (Result_of r (throw_exceptions q)))
  | None =>
      let q := with_copacetic q (result_empty d) in
      if copacetic_ q || negb (throw_exceptions q)
      then (q, returns Result_empty)
      else (q, throws BadQuery)
  end.

(** [Query::store_next()], the branch compiled for MySQL 4.1 and later. *)
Definition store_next (d : DBDriver) (q : Query SQLTypeAdapter)
  : outcome Result :=
  match next_result d with
  | nr_more_results =>
      match store_result d with
      | Some r => returns (Result_of r (throw_exceptions q))
      | None =>
          if negb (errnum d =? 0) && throw_exceptions q
          then throws BadQuery
          else returns Result_empty
      end
  | rc =>
      if throw_exceptions q then
        match rc with
        | nr_error => throws BadQuery
        | _ => if negb (errnum d =? 0) then throws BadQuery
               else returns Result_empty
        end
      else returns Result_empty
  end.

(** [ResNSel(conn_, insert_id(), affected_rows(), info())] or the empty
    [ResNSel()]. *)
Inductive ResNSel :=
  | ResNSel_of (insert_id affected_rows : Z) (info : string)
  | ResNSel_empty.

(** [ResUse(res, throw_exceptions())] or the empty [ResUse()]. *)
Inductive ResUse :=
  | ResUse_of (res : MYSQL_RES) (te : bool)
  | ResUse_empty.

(** What else the driver answers during one call. *)
Record DBDriverInfo := mkInfo {
  insert_id : Z;
  affected_rows : Z;
  query_info : string;
  use_result : option MYSQL_RES
}.

(** [Query::exec(const std::string& str)] *)
Definition exec (d : DBDriver) (str : string) (q : Query SQLTypeAdapter)
  : Query SQLTypeAdapter * outcome bool :=
  let q := with_copacetic q (execute d str) in
  let q := if (length (parse_elems_ q) =? 0)%nat then reset q else q in
  if negb (copacetic_ q) && throw_exceptions q
  then (q, throws BadQuery)
  else (q, returns (copacetic_ q)).

(** [Query::execute(const char* str, size_t len)] *)
Definition execute_str (d : DBDriver) (i : DBDriverInfo) (str : string)
    (q : Query SQLTypeAdapter)
  : Query SQLTypeAdapter * outcome ResNSel :=
  let q := with_copacetic q (execute d str) in
  let q := if (length (parse_elems_ q) =? 0)%nat then reset q else q in
  if copacetic_ q
  then (q, returns (ResNSel_of (insert_id i) (affected_rows i) (query_info i)))
  else if throw_exceptions q then (q, throws BadQuery)
  else (q, returns ResNSel_empty).

(** [Query::use(const char* str, size_t len)] *)
Definition use_str (d : DBDriver) (i : DBDriverInfo) (str : string)
    (q : Query SQLTypeAdapter)
  : Query SQLTypeAdapter * outcome ResUse :=
  let q := with_copacetic q (execute d str) in
  let q := if (length (parse_elems_ q) =? 0)%nat then reset q else q in
  let res := if copacetic_ q then use_result i else None in
  match res with
  | Some r => (q, returns (ResUse_of r (throw_exceptions q)))
  | None =>
      let q := with_copacetic q (result_empty d) in
      if copacetic_ q || negb (throw_exceptions q)
      then (q, returns ResUse_empty)
      else (q, throws BadQuery)
  end.

(** [SQLQueryParms() << s]: the list that holds [s] alone; [b] is what
    [bound()] answers for a list made so (its constructor is not under
    src/). *)
Definition lone_parameter (b : bool) (s : SQLTypeAdapter)
  : SQLQueryParms SQLTypeAdapter :=
  mkParms [s] b.

Section OneParameter.

Variable escape_string : string -> string.
Variable b : bool.
Context {R : Type}.

(** The overload that takes [(const char* str, size_t len)]. *)
Variable raw :
  string -> Query SQLTypeAdapter -> Query SQLTypeAdapter * outcome R.

(** The overloads that take [(const SQLTypeAdapter& s)] and
    [(SQLQueryParms& p)] of execute, store and use; they call each
    other. [processing] is [template_defaults.processing_], which the
    [AutoFlag] of each overload keeps set during the nested call; the
    text [str(p)] returns comes back as a [SQLTypeAdapter]. *)
Fixpoint call_with_adapter (fuel : nat) (processing : bool) (s : SQLTypeAdapter)
    (q : Query SQLTypeAdapter)
  : option (Query SQLTypeAdapter * outcome R) :=
  match fuel with
  | O => None
  | S fuel' =>
      if (length (parse_elems_ q) =? 2)%nat && negb processing then
        match call_with_parms fuel' (mkMem q (lone_parameter b s)) with
        | Some (m', r) => Some (the_query m', r)
        | None => None
        end
      else Some (raw (data s) q)
  end
with call_with_parms (fuel : nat) (m : Mem SQLTypeAdapter)
  : option (Mem SQLTypeAdapter * outcome R) :=
  match fuel with
  | O => None
  | S fuel' =>
      match str escape_string to_call_parms m with
      | (m', inl text) =>
          match call_with_adapter fuel' true (of_string text) (the_query m') with
          | Some (q', r) => Some (mkMem q' (call_parms m'), r)
          | None => None
          end
      | (m', inr e) => Some (m', throws e)
      end
  end.

End OneParameter.

(** [Query::execute(const SQLTypeAdapter& s)] and
    [Query::store(const SQLTypeAdapter& s)] *)
Definition execute_adapter (esc : string -> string) (b : bool)
    (d : DBDriver) (i : DBDriverInfo) :=
  call_with_adapter esc b (execute_str d i).

Definition store_adapter (esc : string -> string) (b : bool) (d : DBDriver) :=
  call_with_adapter esc b (store d).

Definition use_adapter (esc : string -> string) (b : bool)
    (d : DBDriver) (i : DBDriverInfo) :=
  call_with_adapter esc b (use_str d i).

(** [Query::execute(SQLQueryParms& p)], [Query::store(SQLQueryParms& p)]
    and [Query::use(SQLQueryParms& p)] *)
Definition execute_parms (esc : string -> string) (b : bool)
    (d : DBDriver) (i : DBDriverInfo) :=
  call_with_parms esc b (execute_str d i).

Definition store_parms (esc : string -> string) (b : bool) (d : DBDriver) :=
  call_with_parms esc b (store d).

Definition use_parms (esc : string -> string) (b : bool)
    (d : DBDriver) (i : DBDriverInfo) :=
  call_with_parms esc b (use_str d i).

End V3.

(** ** The SQLString-based revision (src/lib/query.cpp) *)

Module V2.

(** [SQLString] (src/lib/sql_string.cpp): a [std::string] with three
    public flags. *)
Record SQLString := mkSQLString {
  data : string;
  is_string : bool;
  dont_escape : bool;
  processed : bool
}.

(** [SQLString] made from a [std::string] *)
Definition of_string (s : string) : SQLString :=
  mkSQLString s true false false.

(** [SQLString] made from a [const char*] *)
Definition of_cstr (s : string) : SQLString :=
  mkSQLString (c_str s) true false false.

(** [*ss += s] for a [char*] and for a literal: the flags stay. *)
Definition append_cstr (ss : SQLString) (s : string) : SQLString :=
  mkSQLString (data ss +:+ c_str s) (is_string ss) (dont_escape ss)
              (processed ss).

Definition set_processed (S : SQLString) : SQLString :=
  mkSQLString (data S) (is_string S) (dont_escape S) true.

Section Driver.

(** [mysql_real_escape_string], as a function of the bytes; it writes
    a NUL-terminated buffer. *)
Variable escape_string : string -> string.

Definition pprepare (option : ascii) (S : SQLString) (replace : bool)
  : SQLString * prep_ret SQLString :=
  if processed S then (S, same_object)
  else if is_char option "r" || (is_char option "q" && is_string S) then
    let s := escape_string (data S) in
    let ss := of_cstr "'" in
    let ss := append_cstr ss s in
    let ss := append_cstr ss "'" in
    if replace then (set_processed ss, same_object)
    else (S, new_object ss)
  else if is_char option "R" || (is_char option "Q" && is_string S) then
    let ss := of_string (("'" +:+ data S) +:+ "'") in
    if replace then (set_processed ss, same_object)
    else (S, new_object ss)
  else
    if replace then (set_processed S, same_object)
    else (S, same_object).

Definition proc (p : parms_ptr) (m : Mem SQLString)
  : Mem SQLString * option Exn :=
  proc data pprepare p m.

Definition str (p : parms_ptr) (m : Mem SQLString)
  : Mem SQLString * (string + Exn) :=
  str data pprepare p m.

End Driver.

(** This revision accepts the option characters [q], [Q], [r], [R]. *)
Definition is_option_char (c : ascii) : bool :=
  is_char c "q" || is_char c "Q" || is_char c "r" || is_char c "R".

Definition parse (q : Query SQLString) : option (Query SQLString) :=
  parse_with is_option_char q.

(** What the connection and the C API answer during one call:
    [lock()] answers true when the lock is already held;
    [mysql_real_query] answers 0 on success; [mysql_next_result]
    answers 0 for another result, -1 for none, a positive error. *)
Record Connection := mkConn {
  lock : bool;
  mysql_real_query : string -> Z;
  mysql_store_result : option MYSQL_RES;
  mysql_next_result : Z;
  errnum : Z
}.

(** [Query::store(const char* str, size_t len)] *)
Definition store (c : Connection) (str : string) (q : Query SQLString)
  : Query SQLString * outcome Result :=
  if lock c then
    let q := with_copacetic q false in
    if throw_exceptions q then (q, throws LockFailed)
    else (q, returns Result_empty)
  else
    let q := with_copacetic q (mysql_real_query c str =? 0) in
    match (if copacetic_ q then mysql_store_result c else None) with
    | Some r => (q, returns (Result_of r (throw_exceptions q)))
    | None =>
        let q := with_copacetic q false in
        if negb (errnum c =? 0) && throw_exceptions q
        then (q, throws BadQuery)
        else (q, returns Result_empty)
    end.

(** [Query::store_next()], the branch compiled for MySQL 4.1 and later. *)
Definition store_next (c : Connection) (q : Query SQLString)
  : outcome Result :=
  if lock c then
    if throw_exceptions q then throws LockFailed
    else returns Result_empty
  else
    let ret := mysql_next_result c in
    if ret =? 0 then
      match mysql_store_result c with
      | Some r => returns (Result_of r (throw_exceptions q))
      | None =>
          if negb (errnum c =? 0) && throw_exceptions q
          then throws BadQuery
          else returns Result_empty
      end
    else
      if throw_exceptions q then
        if 0 <? ret then throws BadQuery
        else throws EndOfResultSets
      else returns Result_empty.

(** [ResNSel(conn_)] or the empty [ResNSel()]. *)
Inductive ResNSel := ResNSel_of_conn | ResNSel_empty.

(** [ResUse(res, conn_, throw_exceptions())] or the empty [ResUse()]. *)
Inductive ResUse :=
  | ResUse_of (res : MYSQL_RES) (te : bool)
  | ResUse_empty.

(** [Query::exec(const std::string& str)] *)
Definition exec (c : Connection) (str : string) (q : Query SQLString)
  : Query SQLString * outcome bool :=
  let q := with_copacetic q (mysql_real_query c str =? 0) in
  if negb (copacetic_ q) && throw_exceptions q
  then (q, throws BadQuery)
  else (q, returns (copacetic_ q)).

(** [Query::execute(const char* str, size_t len)] *)
Definition execute_str (c : Connection) (str : string) (q : Query SQLString)
  : Query SQLString * outcome ResNSel :=
  if lock c then
    let q := with_copacetic q false in
    if throw_exceptions q then (q, throws LockFailed)
    else (q, returns ResNSel_empty)
  else
    let q := with_copacetic q (mysql_real_query c str =? 0) in
    if copacetic_ q then (q, returns ResNSel_of_conn)
    else if throw_exceptions q then (q, throws BadQuery)
    else (q, returns ResNSel_empty).

(** [Query::use(const char* str, size_t len)]; [mysql_use_result] is
    what the C API answers for the result handle. *)
Definition use_str (c : Connection) (mysql_use_result : option MYSQL_RES)
    (str : string) (q : Query SQLString)
  : Query SQLString * outcome ResUse :=
  if lock c then
    let q := with_copacetic q false in
    if throw_exceptions q then (q, throws LockFailed)
    else (q, returns ResUse_empty)
  else
    let q := with_copacetic q (mysql_real_query c str =? 0) in
    match (if copacetic_ q then mysql_use_result else None) with
    | Some r => (q, returns (ResUse_of r (throw_exceptions q)))
    | None =>
        let q := with_copacetic q false in
        if negb (errnum c =? 0) && throw_exceptions q
        then (q, throws BadQuery)
        else (q, returns ResUse_empty)
    end.

(** *** The constructors of src/lib/sql_string.cpp that take a number *)















End V2.

(** ** The oldest revision (src/trunk/lib/query.cpp) *)

Module Trunk.

(** What the connection and the C API answer during one call;
    [store] never asks for the pending error code [errnum]. *)
Record Connection := mkConn {
  lock : bool;
  mysql_query : string -> Z;
  mysql_store_result : option MYSQL_RES;
  errnum : Z
}.

(** [Query::store(const char* str)]: the new value of [Success] and
    how the call ends; [te] is [throw_exceptions()]. *)
Definition store (c : Connection) (te : bool) (str : string)
  : bool * outcome Result :=
  if lock c then
    if te then (false, throws BadQuery)
    else (false, returns Result_empty)
  else
    let Success := mysql_query c str =? 0 in
    match (if Success then mysql_store_result c else None) with
    | Some r => (Success, returns (Result_of r te))
    | None =>
        if te then (Success, throws BadQuery)
        else (Success, returns Result_empty)
    end.

End Trunk.

(** ** Notions used in the statements *)

(** A query as its constructor leaves it, with the template text in its
    buffer; [b] is what [bound()] answers for its [template_defaults]. *)
Definition new_Query {V} (b te : bool) (qstr : string) : Query V :=
  mkQuery qstr [] [] ∅ (mkParms [] b) te true.

(** The text [proc] writes for a placeholder: the bytes of [*ss]. *)
Definition rendered {V} (data : V -> string) (r : V * prep_ret V) : string :=
  data (pointee (fst r) (snd r)).

(** A placeholder that neither list can fill. *)
Definition unresolved {V} (m : Mem V) (p : parms_ptr) (e : SQLParseElement)
  : Prop :=
  0 <= num e /\
  (length (values (deref m p)) <= Z.to_nat (num e))%nat /\
  (length (values (template_defaults (the_query m))) <= Z.to_nat (num e))%nat.

(** What [proc] never changes: the sizes and the [bound()] answers of the
    two lists, and the parsed template. *)
Definition same_shape {V} (m m' : Mem V) : Prop :=
  (forall c, length (values (deref m' c)) = length (values (deref m c)) /\
             bound (deref m' c) = bound (deref m c)) /\
  parse_elems_ (the_query m') = parse_elems_ (the_query m).

(** How the lists change along [proc]: a value that is processed, and
    any value of a list that is not bound, stays as it is. *)
Definition evolves {V} (processed : V -> bool) (m m' : Mem V) : Prop :=
  same_shape m m' /\
  forall c i v,
    values (deref m c) !! i = Some v ->
    processed v = true \/ bound (deref m c) = false ->
    values (deref m' c) !! i = Some v.

(** A driver's escaping routine for the examples: a backslash goes
    before a single quote and before a backslash. *)
Fixpoint sample_escape (s : string) : string :=
  match s with
  | EmptyString => EmptyString
  | String c t =>
      if is_char c "'" || is_char c "\"
      then String "\" (String c (sample_escape t))
      else String c (sample_escape t)
  end.

(** ** Examples *)

(** A query whose template text has been parsed. *)
Definition template (b te : bool) (text : string) : Query V3.SQLTypeAdapter :=
  match V3.parse (new_Query b te text) with
  | Some q => q
  | None => new_Query b te text
  end.

(** "name = %0q" with the bound call-site value [it's]. *)
Definition c1_mem : Mem V3.SQLTypeAdapter :=
  mkMem (template false true "name = %0q")
        (mkParms [V3.of_string "it's"] true).

(** "a %0q b %1q c %2 d" with one call-site value and two defaults. *)
Definition ex_mem : Mem V3.SQLTypeAdapter :=
  mkMem (with_defaults (template false true "a %0q b %1q c %2 d")
           (mkParms [V3.mkSTA "7" false false false; V3.of_string "d1"] false))
        (mkParms [V3.of_string "it's"] true).

(** A string-typed value of src/lib/query.cpp with dont_escape set. *)
Definition ex_dont_escape : V2.SQLString :=
  V2.mkSQLString "it's" true true false.

(** A query with nothing parsed and exceptions enabled. *)
Definition plain_query {V} : Query V := new_Query false true EmptyString.

(** A statement that runs, gives no result handle and leaves no error;
    no further result set. *)
Definition ok_driver : V3.DBDriver :=
  V3.mkDriver (fun _ => true) None 0 V3.nr_last_result.

Definition ok_trunk : Trunk.Connection :=
  Trunk.mkConn false (fun _ => 0) None 0.

Definition ok_conn : V2.Connection :=
  V2.mkConn false (fun _ => 0) None (-1) 0.

(** ** Notions used in the further properties *)

(** Template text in which parse finds no placeholder and no doubled
    percent sign: no NUL byte, and every percent sign is followed by a
    character that is neither a digit nor a percent sign (or by the end
    of the text). *)
Fixpoint plain_text (s : string) : bool :=
  match s with
  | EmptyString => true
  | String c t =>
      negb (is_char c NUL) &&
      (if is_char c "%"
       then negb (is_char (cur t) "%") && negb (isdigit (cur t))
       else true) &&
      plain_text t
  end.

(** The characters a parameter name is made of. *)
Definition is_name_char (c : ascii) : bool := isalnum c || is_char c "_".

Fixpoint name_chars (s : string) : bool :=
  match s with
  | EmptyString => true
  | String c t => is_name_char c && name_chars t
  end.

(** What parse can store in an element: a position that fits a signed
    char and, as option, a space or a character the revision accepts. *)
Definition elem_ok (is_opt : ascii -> bool) (e : SQLParseElement) : Prop :=
  -128 <= num e <= 127 /\ (opt e = " "%char \/ is_opt (opt e) = true).

(** The parser state with the unread text cut at its first NUL byte. *)
Definition cut_at_NUL (st : ParseState) : ParseState :=
  mkPS (c_str (ps_s st)) (ps_str st) (ps_elems st) (ps_names st) (ps_nums st).

(** The text one element contributes to the rendering: its literal
    text, then, for a placeholder that a list can fill, the text
    pprepare gives for the value there. *)
Definition piece {V} (data : V -> string)
    (pprepare : ascii -> V -> bool -> V * prep_ret V)
    (m : Mem V) (p : parms_ptr) (e : SQLParseElement) : string :=
  before e +:+
  (if 0 <=? num e then
     match choose m p (Z.to_nat (num e)) with
     | Some c =>
         match values (deref m c) !! Z.to_nat (num e) with
         | Some v => rendered data (pprepare (opt e) v (bound (deref m c)))
         | None => EmptyString
         end
     | None => EmptyString
     end
   else EmptyString).

(** The texts of a list, one after the other. *)
Definition concat_strings (l : list string) : string :=
  fold_right String.append EmptyString l.

(** "a %0q b %1 c" with one call-site value and two defaults, neither
    list bound. *)
Definition ex_ro_mem : Mem V3.SQLTypeAdapter :=
  mkMem (with_defaults (template false true "a %0q b %1 c")
           (mkParms [V3.mkSTA "7" false false false; V3.of_string "d1"] false))
        (mkParms [V3.of_string "it's"] false).

(** "%0q and %0" with one bound call-site value. *)
Definition ex_twice_mem : Mem V3.SQLTypeAdapter :=
  mkMem (template false true "%0q and %0")
        (mkParms [V3.of_string "it's"] true).


(** "id = %1": one placeholder, at position 1; exceptions disabled. *)
Definition ex_position_one : Query V3.SQLTypeAdapter :=
  template false false "id = %1".

(** A connection whose lock is held. *)
Definition locked_conn : V2.Connection :=
  V2.mkConn true (fun _ => 0) None (-1) 0.

(** ** DBDriver::set_option (src/lib/dbdriver.cpp) *)

(** [while (n && ((n & 1) == 0)) n >>= 1;] on an [int]. *)
Fixpoint shift_out_zero_bits (fuel : nat) (n : Z) : option Z :=
  match fuel with
  | O => None
  | S fuel' =>
      if negb (n =? 0) && (Z.land n 1 =? 0)
      then shift_out_zero_bits fuel' (Z.shiftr n 1)
      else Some n
  end.

Section SetOption.

(** The least and the greatest client flag the driver understands;
    both are constants of the C API header. *)
Variables CLIENT_LONG_PASSWORD CLIENT_MULTI_RESULTS : Z.

(** [DBDriver::set_option(int o, bool arg)]: the new value of
    [mysql_.client_flag] and the answer. *)
Definition set_option (o : Z) (arg : bool) (client_flag : Z)
  : option (Z * bool) :=
  match shift_out_zero_bits 33 o with
  | None => None
  | Some n =>
      if (n =? 1) && (CLIENT_LONG_PASSWORD <=? o) &&
         (o <=? CLIENT_MULTI_RESULTS)
      then Some ((if arg then Z.lor client_flag o
                  else Z.land client_flag (Z.lnot o)), true)
      else Some (client_flag, false)
  end.

End SetOption.

(** * Properties *)

(** ** The parser terminates *)

Lemma adv_length (s : string) : (String.length (adv s) <= String.length s)%nat.
Proof. destruct s; simpl; lia. Qed.

Lemma cur_not_NUL_length (s : string) :
  is_char (cur s) NUL = false ->
  String.length s = S (String.length (adv s)).
Proof. destruct s; simpl; [discriminate | reflexivity]. Qed.

Lemma isdigit_not_NUL (c : ascii) :
  isdigit c = true -> is_char c NUL = false.
Proof.
  unfold is_char. intros H. destruct (Ascii.eqb c NUL) eqn:E; [|reflexivity].
  apply Ascii.eqb_eq in E. subst c. discriminate H.
Qed.

Lemma scan_name_length (name s : string) :
  (String.length (snd (scan_name name s)) <= String.length s)%nat.
Proof.
  revert name. induction s as [|c t IH]; intros name; simpl; [lia|].
  destruct (isalnum c || is_char c "_"); simpl; [|lia].
  specialize (IH (push_char name c)). lia.
Qed.

Lemma scan_digits_length (s : string) :
  (String.length (snd (scan_digits s)) <= String.length (adv s))%nat.
Proof.
  unfold scan_digits.
  pose proof (adv_length (adv s)). pose proof (adv_length (adv (adv s))).
  destruct (isdigit (cur (adv s))); [|simpl; lia].
  destruct (isdigit (cur (adv (adv s)))); simpl; lia.
Qed.

Section ParseFacts.

Variable is_option_char : ascii -> bool.

(** Every turn of the loop moves [s] forward. *)
Lemma parse_iter_consumes (st st' : ParseState) :
  is_char (cur (ps_s st)) NUL = false ->
  parse_iter is_option_char st = Some st' ->
  (String.length (ps_s st') < String.length (ps_s st))%nat.
Proof.
  intros Hs. unfold parse_iter.
  pose proof (cur_not_NUL_length _ Hs) as Hlen.
  destruct (is_char (cur (ps_s st)) "%"); [|intros [= <-]; simpl; lia].
  set (s1 := adv (ps_s st)) in *.
  destruct (is_char (cur s1) "%") eqn:Epct.
  { pose proof (adv_length s1). intros [= <-]. simpl. lia. }
  destruct (isdigit (cur s1)) eqn:Edig; [|intros [= <-]; simpl; lia].
  pose proof (cur_not_NUL_length _ (isdigit_not_NUL _ Edig)) as Hlen1.
  pose proof (scan_digits_length s1) as Hd.
  destruct (scan_digits s1) as [digits s2]. simpl in Hd.
  set (r := if is_option_char (cur s2) then (cur s2, adv s2)
            else (" "%char, s2)).
  assert (Hr : (String.length (snd r) <= String.length s2)%nat).
  { subst r. destruct (is_option_char (cur s2)); simpl;
      [apply adv_length | lia]. }
  destruct r as [option s3]. simpl in Hr. cbv zeta.
  destruct (is_char (cur s3) ":"); [|intros [= <-]; simpl; lia].
  pose proof (scan_name_length EmptyString (adv s3)) as Hn.
  pose proof (adv_length s3).
  destruct (scan_name EmptyString (adv s3)) as [name s4]. simpl in Hn.
  pose proof (adv_length s4).
  destruct (set_name _ _ _); [|discriminate].
  destruct (is_char (cur s4) ":"); intros [= <-]; simpl; lia.
Qed.

(** The turns allowed are never used up: the loop ends at the NUL or
    in a write outside [parsed_names_]. *)
Lemma parse_loop_enough (fuel : nat) (st : ParseState) :
  (String.length (ps_s st) <= fuel)%nat ->
  parse_loop is_option_char fuel st <> out_of_fuel.
Proof.
  revert st. induction fuel as [|fuel IH]; intros st Hlen.
  - destruct (ps_s st) eqn:E; simpl in Hlen; [|lia].
    simpl. rewrite E. discriminate.
  - simpl. destruct (is_char (cur (ps_s st)) NUL) eqn:E; [discriminate|].
    destruct (parse_iter is_option_char st) as [st'|] eqn:Ei; [|discriminate].
    apply IH. pose proof (parse_iter_consumes st st' E Ei). lia.
Qed.

(** A negative position is the only thing [set_name] has no result
    for. *)
Lemma set_name_None (names : list string) (n : Z) (name : string) :
  set_name names n name = None <-> n < 0.
Proof.
  unfold set_name. destruct (Z.leb_spec 0 n); split; (discriminate || lia || done).
Qed.

(** A turn has no result only at a percent sign followed by digits
    whose value, kept as a signed char, is negative. *)
Lemma parse_iter_None (st : ParseState) :
  parse_iter is_option_char st = None ->
  is_char (cur (ps_s st)) "%" = true /\
  isdigit (cur (adv (ps_s st))) = true /\
  to_schar (atoi (fst (scan_digits (adv (ps_s st))))) < 0.
Proof.
  unfold parse_iter.
  destruct (is_char (cur (ps_s st)) "%"); [|discriminate].
  destruct (is_char (cur (adv (ps_s st))) "%"); [discriminate|].
  destruct (isdigit (cur (adv (ps_s st)))); [|discriminate].
  destruct (scan_digits (adv (ps_s st))) as [digits s2]. cbn [fst].
  destruct (if is_option_char (cur s2) then (cur s2, adv s2)
            else (" "%char, s2)) as [option s3]. cbv zeta.
  destruct (is_char (cur s3) ":"); [|discriminate].
  destruct (scan_name EmptyString (adv s3)) as [name s4].
  destruct (set_name _ _ _) eqn:E; [discriminate|].
  intros _. apply set_name_None in E. done.
Qed.

(** [parse] has no result exactly when the loop runs into the write
    outside [parsed_names_]. *)
Lemma parse_with_None {V} (q : Query V) :
  parse_with is_option_char q = None <->
  parse_loop is_option_char (String.length (sbuffer_ q))
    (mkPS (sbuffer_ q) EmptyString (parse_elems_ q)
          (parsed_names_ q) (parsed_nums_ q)) = out_of_bounds.
Proof.
  unfold parse_with.
  pose proof (parse_loop_enough (String.length (sbuffer_ q))
                (mkPS (sbuffer_ q) EmptyString (parse_elems_ q)
                      (parsed_names_ q) (parsed_nums_ q))) as H.
  destruct (parse_loop _ _ _); split; try done.
  intros _. exfalso. apply H; [simpl; lia | reflexivity].
Qed.

(** The last element parse appends is the trailing literal, at [-1]. *)
Lemma parse_with_last {V} (q q' : Query V) :
  parse_with is_option_char q = Some q' ->
  exists front trailing,
    parse_elems_ q' = front ++ [mkElem trailing " " (-1)].
Proof.
  unfold parse_with.
  destruct (parse_loop _ _ _) as [st| |]; [|discriminate..].
  intros [= <-]. simpl. eauto.
Qed.

End ParseFacts.

(** Where [Query::parse] returns, its last element is the trailing
    literal at position [-1], in both revisions. *)
Lemma V3_parse_last (q q' : Query V3.SQLTypeAdapter) :
  V3.parse q = Some q' ->
  exists front trailing,
    parse_elems_ q' = front ++ [mkElem trailing " " (-1)].
Proof. apply parse_with_last. Qed.

Lemma V2_parse_last (q q' : Query V2.SQLString) :
  V2.parse q = Some q' ->
  exists front trailing,
    parse_elems_ q' = front ++ [mkElem trailing " " (-1)].
Proof. apply parse_with_last. Qed.

(** A named placeholder whose three digits do not fit a signed char:
    [Query::parse] writes outside [parsed_names_], in both revisions. *)
Lemma parse_named_wrapped_position :
  V3.parse (new_Query false true "%200:nm") = None /\
  V2.parse (new_Query false true "%200:nm") = None.
Proof. split; apply parse_with_None; vm_compute; reflexivity. Qed.

(** ** Facts about proc, for every revision *)

Lemma with_buf_buf {V} (m : Mem V) : with_buf m (buf m) = m.
Proof. destruct m as [[] ?]. reflexivity. Qed.

Lemma with_buf_with_buf {V} (m : Mem V) (a b : string) :
  with_buf (with_buf m a) b = with_buf m b.
Proof. reflexivity. Qed.

Lemma buf_with_buf {V} (m : Mem V) (b : string) : buf (with_buf m b) = b.
Proof. reflexivity. Qed.

Lemma deref_with_buf {V} (m : Mem V) (b : string) (c : parms_ptr) :
  deref (with_buf m b) c = deref m c.
Proof. destruct c; reflexivity. Qed.

Lemma deref_store_value {V} (m : Mem V) (c c' : parms_ptr) (n : nat) (v : V) :
  deref (store_value m c n v) c' =
  if decide (c = c') then set_value (deref m c) n v else deref m c'.
Proof. destruct c, c'; reflexivity. Qed.

Lemma store_value_same {V} (m : Mem V) (c : parms_ptr) (n : nat) (v : V) :
  values (deref m c) !! n = Some v -> store_value m c n v = m.
Proof.
  destruct m as [[b e ns nm [d bd] te co] [vs bv]], c; simpl; intros H;
    unfold store_value, set_value, with_defaults; simpl;
    rewrite (list_insert_id _ _ _ H); reflexivity.
Qed.

Lemma store_value_with_buf {V} (m : Mem V) (b : string) c n (v : V) :
  store_value (with_buf m b) c n v = with_buf (store_value m c n v) b.
Proof. destruct c; reflexivity. Qed.

Lemma buf_store_value {V} (m : Mem V) c n (v : V) :
  buf (store_value m c n v) = buf m.
Proof. destruct c; reflexivity. Qed.

Lemma same_shape_refl {V} (m : Mem V) : same_shape m m.
Proof. split; [intros c; split|]; reflexivity. Qed.

Lemma same_shape_trans {V} (m1 m2 m3 : Mem V) :
  same_shape m1 m2 -> same_shape m2 m3 -> same_shape m1 m3.
Proof.
  intros [H1 E1] [H2 E2]. split; [|congruence].
  intros c. destruct (H1 c), (H2 c). split; congruence.
Qed.

Lemma same_shape_with_buf {V} (m : Mem V) (b : string) :
  same_shape m (with_buf m b).
Proof. split; [intros c; rewrite deref_with_buf; split|]; reflexivity. Qed.

Lemma same_shape_store_value {V} (m : Mem V) c n (v : V) :
  same_shape m (store_value m c n v).
Proof.
  split; [|destruct c; reflexivity].
  intros c'. rewrite deref_store_value. destruct (decide (c = c')) as [<-|];
    [|split; reflexivity].
  simpl. rewrite length_insert. split; reflexivity.
Qed.

Lemma choose_same_shape {V} (m m' : Mem V) p n :
  same_shape m m' -> choose m' p n = choose m p n.
Proof.
  intros [H _]. unfold choose.
  destruct (H p) as [-> _]. destruct (H to_template_defaults) as [E _].
  simpl in E. rewrite E. reflexivity.
Qed.

Lemma choose_Some {V} (m : Mem V) p n c :
  choose m p n = Some c -> (n < length (values (deref m c)))%nat.
Proof.
  unfold choose.
  destruct (n <? length (values (deref m p)))%nat eqn:E1.
  { intros [= <-]. apply Nat.ltb_lt, E1. }
  destruct (n <? length (values (template_defaults (the_query m))))%nat eqn:E2;
    [|discriminate].
  intros [= <-]. apply Nat.ltb_lt, E2.
Qed.

Lemma choose_lookup {V} (m : Mem V) p n :
  choose m p n =
  match values (deref m p) !! n with
  | Some _ => Some p
  | None =>
      match values (template_defaults (the_query m)) !! n with
      | Some _ => Some to_template_defaults
      | None => None
      end
  end.
Proof.
  unfold choose.
  destruct (n <? length (values (deref m p)))%nat eqn:E1.
  { apply Nat.ltb_lt, lookup_lt_is_Some in E1. destruct E1 as [v ->]. done. }
  apply Nat.ltb_ge, lookup_ge_None in E1. rewrite E1.
  destruct (n <? length (values (template_defaults (the_query m))))%nat eqn:E2.
  { apply Nat.ltb_lt, lookup_lt_is_Some in E2. destruct E2 as [v ->]. done. }
  apply Nat.ltb_ge, lookup_ge_None in E2. rewrite E2. done.
Qed.

Lemma choose_None {V} (m : Mem V) p e :
  0 <= num e ->
  choose m p (Z.to_nat (num e)) = None <-> unresolved m p e.
Proof.
  intros Hn. unfold unresolved, choose.
  destruct (Nat.ltb_spec (Z.to_nat (num e)) (length (values (deref m p))));
    [split; [discriminate | lia]|].
  destruct (Nat.ltb_spec (Z.to_nat (num e))
              (length (values (template_defaults (the_query m)))));
    [split; [discriminate | lia]|].
  split; [lia | reflexivity].
Qed.

Section ProcFacts.

Context {V : Type}.
Variable data : V -> string.
Variable pprepare : ascii -> V -> bool -> V * prep_ret V.

Local Abbreviation pelem := (proc_elem data pprepare).
Local Abbreviation ploop := (proc_loop data pprepare).

(** The three ways the loop body goes. *)
Lemma proc_elem_literal p e (m : Mem V) :
  num e < 0 -> pelem p e m = (write m (before e), None).
Proof.
  intros H. unfold proc_elem.
  destruct (Z.leb_spec 0 (num e)); [lia | reflexivity].
Qed.

Lemma proc_elem_unresolved p e (m : Mem V) :
  unresolved m p e ->
  pelem p e m = (write (write m (before e)) " ERROR", Some BadParamCount).
Proof.
  intros H. pose proof H as [H0 _]. unfold proc_elem.
  destruct (Z.leb_spec 0 (num e)); [|lia].
  apply (choose_None _ _ _ H0) in H.
  unfold write at 1.
  rewrite (choose_same_shape m _ _ _ (same_shape_with_buf _ _)).
  rewrite H. reflexivity.
Qed.

Lemma proc_elem_filled p e (m : Mem V) c param :
  0 <= num e ->
  choose m p (Z.to_nat (num e)) = Some c ->
  values (deref m c) !! Z.to_nat (num e) = Some param ->
  pelem p e m =
  (let r := pprepare (opt e) param (bound (deref m c)) in
   write (store_value (write m (before e)) c (Z.to_nat (num e)) (fst r))
         (rendered data r), None).
Proof.
  intros H0 Hc Hv. unfold proc_elem.
  destruct (Z.leb_spec 0 (num e)); [|lia].
  unfold write at 1.
  rewrite (choose_same_shape m _ _ _ (same_shape_with_buf _ _)).
  rewrite Hc. unfold write at 1 2. rewrite !deref_with_buf, Hv.
  destruct (pprepare _ _ _) as [param' ss]. reflexivity.
Qed.

(** The loop body goes one of these ways. *)
Lemma proc_elem_cases p e (m : Mem V) :
  (num e < 0) \/
  (unresolved m p e) \/
  (0 <= num e /\ exists c param,
      choose m p (Z.to_nat (num e)) = Some c /\
      values (deref m c) !! Z.to_nat (num e) = Some param).
Proof.
  destruct (Z.lt_ge_cases (num e) 0) as [|H0]; [by left|right].
  destruct (choose m p (Z.to_nat (num e))) as [c|] eqn:Hc.
  - right. split; [done|]. exists c.
    apply choose_Some, lookup_lt_is_Some in Hc as Hl. destruct Hl as [v Hv].
    eauto.
  - left. by apply choose_None.
Qed.

Lemma proc_elem_shape p e (m : Mem V) : same_shape m (fst (pelem p e m)).
Proof.
  destruct (proc_elem_cases p e m) as [H|[H|(H0 & c & param & Hc & Hv)]].
  - rewrite (proc_elem_literal p e m H). apply same_shape_with_buf.
  - rewrite (proc_elem_unresolved p e m H). simpl.
    eapply same_shape_trans; apply same_shape_with_buf.
  - rewrite (proc_elem_filled _ _ _ _ _ H0 Hc Hv). simpl.
    eapply same_shape_trans; [apply same_shape_with_buf|].
    eapply same_shape_trans; [apply same_shape_store_value|].
    apply same_shape_with_buf.
Qed.

Lemma proc_loop_shape p elems (m : Mem V) :
  same_shape m (fst (ploop p elems m)).
Proof.
  revert m. induction elems as [|e elems IH]; intros m; simpl.
  { apply same_shape_refl. }
  pose proof (proc_elem_shape p e m) as Hs.
  destruct (pelem p e m) as [m' [x|]]; simpl in *; [done|].
  eapply same_shape_trans; [exact Hs | apply IH].
Qed.

Lemma unresolved_same_shape (m m' : Mem V) p e :
  same_shape m m' -> unresolved m' p e <-> unresolved m p e.
Proof.
  intros [H _]. unfold unresolved.
  destruct (H p) as [-> _]. destruct (H to_template_defaults) as [E _].
  simpl in E. rewrite E. reflexivity.
Qed.

Lemma proc_loop_app p pre rest (m : Mem V) :
  ploop p (pre ++ rest) m =
  match ploop p pre m with
  | (m1, None) => ploop p rest m1
  | thrown => thrown
  end.
Proof.
  revert m. induction pre as [|e pre IH]; intros m; simpl; [reflexivity|].
  destruct (pelem p e m) as [m' [x|]]; [reflexivity | apply IH].
Qed.

(** Where the loop stops when it throws. *)
Lemma proc_loop_thrown p elems (m m' : Mem V) x :
  ploop p elems m = (m', Some x) ->
  exists pre e post m1,
    elems = pre ++ e :: post /\
    ploop p pre m = (m1, None) /\
    unresolved m p e /\
    m' = write (write m1 (before e)) " ERROR" /\
    x = BadParamCount.
Proof.
  revert m. induction elems as [|e elems IH]; intros m; simpl; [discriminate|].
  pose proof (proc_elem_shape p e m) as Hs.
  destruct (proc_elem_cases p e m) as [H|[H|(H0 & c & param & Hc & Hv)]].
  - rewrite (proc_elem_literal p e m H) in *. simpl in Hs. intros Hl.
    destruct (IH _ Hl) as (pre & e' & post & m1 & -> & Hpre & Hu & -> & ->).
    exists (e :: pre), e', post, m1. simpl.
    rewrite (proc_elem_literal p e m H).
    split; [done|]. split; [done|]. split; [|done].
    by apply (unresolved_same_shape m _ p e' Hs).
  - rewrite (proc_elem_unresolved p e m H). intros [= <- <-].
    exists [], e, elems, m. split; [done|]. split; [done|]. split; done.
  - rewrite (proc_elem_filled _ _ _ _ _ H0 Hc Hv) in *. simpl in Hs. intros Hl.
    destruct (IH _ Hl) as (pre & e' & post & m1 & -> & Hpre & Hu & -> & ->).
    exists (e :: pre), e', post, m1. simpl.
    rewrite (proc_elem_filled _ _ _ _ _ H0 Hc Hv).
    split; [done|]. split; [done|]. split; [|done].
    by apply (unresolved_same_shape m _ p e' Hs).
Qed.

(** The loop throws exactly when a placeholder cannot be filled. *)
Lemma proc_loop_throws_iff p elems (m : Mem V) :
  snd (ploop p elems m) = Some BadParamCount <->
  Exists (unresolved m p) elems.
Proof.
  split.
  - destruct (ploop p elems m) as [m' r] eqn:E. simpl. intros ->.
    apply proc_loop_thrown in E as (pre & e & post & m1 & -> & _ & Hu & _).
    apply Exists_app. right. by constructor.
  - revert m. induction elems as [|e elems IH]; intros m Hex;
      [by apply Exists_nil in Hex|]. simpl.
    pose proof (proc_elem_shape p e m) as Hs.
    destruct (proc_elem_cases p e m) as [H|[H|(H0 & c & param & Hc & Hv)]].
    + rewrite (proc_elem_literal p e m H) in *. simpl in Hs.
      apply Exists_cons in Hex as [[Hn _]|Hex]; [lia|].
      apply IH. eapply Exists_impl; [exact Hex|].
      intros e' He'. by apply (unresolved_same_shape m _ p e' Hs).
    + rewrite (proc_elem_unresolved p e m H). reflexivity.
    + rewrite (proc_elem_filled _ _ _ _ _ H0 Hc Hv) in *. simpl in Hs.
      apply Exists_cons in Hex as [Hu|Hex].
      { apply (choose_None _ _ _ H0) in Hu. congruence. }
      apply IH. eapply Exists_impl; [exact Hex|].
      intros e' He'. by apply (unresolved_same_shape m _ p e' Hs).
Qed.

End ProcFacts.

Section ProcReplay.

Context {V : Type}.
Variable data : V -> string.
Variable processed : V -> bool.
Variable pprepare : ascii -> V -> bool -> V * prep_ret V.

(** What the replay needs of [pprepare]. *)
Hypothesis pprepare_processed :
  forall o S r, processed S = true -> pprepare o S r = (S, same_object).
Hypothesis pprepare_replace :
  forall o S,
    snd (pprepare o S true) = same_object /\
    processed (fst (pprepare o S true)) = true.
Hypothesis pprepare_keep :
  forall o S, fst (pprepare o S false) = S.

Local Abbreviation pelem := (proc_elem data pprepare).
Local Abbreviation ploop := (proc_loop data pprepare).

Lemma evolves_refl (m : Mem V) : evolves processed m m.
Proof. split; [apply same_shape_refl | auto]. Qed.

Lemma evolves_trans (m1 m2 m3 : Mem V) :
  evolves processed m1 m2 -> evolves processed m2 m3 ->
  evolves processed m1 m3.
Proof.
  intros [S1 H1] [S2 H2]. split; [eapply same_shape_trans; eauto|].
  intros c i v Hv Hc. apply H2; [by apply H1|].
  destruct Hc as [|Hb]; [by left|right].
  destruct S1 as [S1 _]. destruct (S1 c) as [_ ->]. done.
Qed.

Lemma proc_elem_evolves p e (m : Mem V) :
  evolves processed m (fst (pelem p e m)).
Proof.
  split; [apply proc_elem_shape|].
  destruct (proc_elem_cases p e m) as [H|[H|(H0 & c & param & Hc & Hv)]].
  - rewrite (proc_elem_literal _ _ p e m H). cbn [fst]. unfold write.
    intros c i v Hv _. by rewrite deref_with_buf.
  - rewrite (proc_elem_unresolved _ _ p e m H). cbn [fst]. unfold write.
    intros c i v Hv _. by rewrite !deref_with_buf.
  - rewrite (proc_elem_filled _ _ _ _ _ _ _ H0 Hc Hv). cbn [fst].
    intros c' i v Hv' Hcond. unfold write.
    rewrite deref_with_buf, deref_store_value.
    destruct (decide (c = c')) as [<-|]; [|by rewrite deref_with_buf].
    rewrite deref_with_buf. simpl.
    destruct (decide (i = Z.to_nat (num e))) as [->|Hne];
      [|by rewrite list_lookup_insert_ne].
    rewrite list_lookup_insert_eq by (by eapply lookup_lt_Some).
    rewrite Hv in Hv'. injection Hv' as ->. f_equal.
    destruct Hcond as [Hp|Hb].
    + by rewrite (pprepare_processed _ _ _ Hp).
    + rewrite Hb. apply pprepare_keep.
Qed.

Lemma proc_loop_evolves p elems (m : Mem V) :
  evolves processed m (fst (ploop p elems m)).
Proof.
  revert m. induction elems as [|e elems IH]; intros m; simpl.
  { apply evolves_refl. }
  pose proof (proc_elem_evolves p e m) as Hs.
  destruct (pelem p e m) as [m' [x|]]; simpl in *; [done|].
  eapply evolves_trans; [exact Hs | apply IH].
Qed.

(** A second pass over lists that the first pass has left as [F]
    writes what the first pass wrote and leaves [F] as it is. *)
Lemma proc_loop_replay p elems (m mf F : Mem V) r :
  ploop p elems m = (mf, r) ->
  evolves processed mf F ->
  ploop p elems (with_buf F (buf m)) = (with_buf F (buf mf), r).
Proof.
  revert m. induction elems as [|e elems IH]; intros m; simpl.
  { intros [= <- <-] _. reflexivity. }
  intros Hl HF.
  assert (HmF : evolves processed m F).
  { eapply evolves_trans; [|exact HF].
    pose proof (proc_loop_evolves p (e :: elems) m) as H.
    simpl in H. rewrite Hl in H. exact H. }
  assert (HG : same_shape m (with_buf F (buf m))).
  { eapply same_shape_trans; [apply HmF | apply same_shape_with_buf]. }
  destruct (proc_elem_cases p e m) as [H|[H|(H0 & c & param & Hc & Hv)]].
  - rewrite (proc_elem_literal _ _ p e m H) in Hl.
    rewrite (proc_elem_literal _ _ p e _ H).
    apply (IH _ Hl HF).
  - rewrite (proc_elem_unresolved _ _ p e m H) in Hl.
    injection Hl as <- <-.
    rewrite (proc_elem_unresolved _ _ p e (with_buf F (buf m)));
      [reflexivity|].
    by apply (unresolved_same_shape m _ p e HG).
  - rewrite (proc_elem_filled _ _ _ _ _ _ _ H0 Hc Hv) in Hl.
    set (r0 := pprepare (opt e) param (bound (deref m c))) in *.
    set (m1 := write (store_value (write m (before e)) c
                        (Z.to_nat (num e)) (fst r0)) (rendered data r0)) in *.
    cbv zeta in Hl.
    assert (Hm1 : evolves processed m1 F).
    { eapply evolves_trans; [|exact HF].
      pose proof (proc_loop_evolves p elems m1) as H.
      rewrite Hl in H. exact H. }
    assert (Hn : values (deref m1 c) !! Z.to_nat (num e) = Some (fst r0)).
    { subst m1. unfold write. rewrite deref_with_buf, deref_store_value.
      rewrite decide_True by done. rewrite deref_with_buf. simpl.
      apply list_lookup_insert_eq. by eapply lookup_lt_Some. }
    assert (Hb1 : bound (deref m1 c) = bound (deref m c)).
    { subst m1. unfold write. rewrite deref_with_buf, deref_store_value.
      rewrite decide_True by done. by rewrite deref_with_buf. }
    assert (HbG : bound (deref (with_buf F (buf m)) c) = bound (deref m c)).
    { destruct HG as [HG _]. by destruct (HG c). }
    assert (HcG : choose (with_buf F (buf m)) p (Z.to_nat (num e)) = Some c).
    { by rewrite (choose_same_shape m _ _ _ HG). }
    assert (HF0 : values (deref F c) !! Z.to_nat (num e) = Some (fst r0) /\
                  pprepare (opt e) (fst r0) (bound (deref m c)) =
                  (fst r0, snd r0)).
    { destruct (bound (deref m c)) eqn:Eb.
      - destruct (pprepare_replace (opt e) param) as [Hs Hp].
        fold r0 in Hs, Hp. split.
        + apply Hm1; [exact Hn | by left].
        + rewrite Hs. by apply pprepare_processed.
      - pose proof (pprepare_keep (opt e) param) as Hk. fold r0 in Hk.
        split.
        + apply Hm1; [exact Hn | right; congruence].
        + etrans; [|apply (surjective_pairing r0)].
          subst r0. f_equal. exact Hk. }
    destruct HF0 as [HFn Hpp].
    rewrite (proc_elem_filled _ _ p e (with_buf F (buf m)) c (fst r0) H0 HcG)
      by (by rewrite deref_with_buf).
    rewrite HbG, Hpp. cbv zeta.
    change (fst (fst r0, snd r0)) with (fst r0).
    unfold write at 2. rewrite !store_value_with_buf.
    rewrite (store_value_same F c _ _ HFn).
    replace (rendered data (fst r0, snd r0)) with (rendered data r0)
      by (by destruct r0).
    replace (write _ (rendered data r0)) with (with_buf F (buf m1));
      [apply (IH m1 Hl HF)|].
    subst m1. unfold write.
    by rewrite !with_buf_with_buf, !buf_with_buf, buf_store_value,
      buf_with_buf.
Qed.

(** A second pass changes nothing and ends as the first did. *)
Lemma proc_twice p (m mf : Mem V) r :
  proc data pprepare p m = (mf, r) ->
  proc data pprepare p mf = (mf, r).
Proof.
  unfold proc. intros H.
  pose proof (proc_loop_shape data pprepare p
                (parse_elems_ (the_query m)) (clear_sbuffer m)) as [_ He].
  rewrite H in He. simpl in He. rewrite He.
  pose proof (proc_loop_replay _ _ _ _ mf _ H (evolves_refl mf)) as Hr.
  rewrite with_buf_buf in Hr. exact Hr.
Qed.

(** Once the loop has filled a placeholder from a bound list, the value
    there is processed, however the loop ends. *)
Lemma proc_loop_marks_at p pre e post (m m1 mf : Mem V) r c :
  ploop p pre m = (m1, None) ->
  ploop p (pre ++ e :: post) m = (mf, r) ->
  0 <= num e ->
  choose m p (Z.to_nat (num e)) = Some c ->
  bound (deref m c) = true ->
  exists v, values (deref mf c) !! Z.to_nat (num e) = Some v /\
            processed v = true.
Proof.
  intros Hpre Hl H0 Hc Hb.
  rewrite proc_loop_app, Hpre in Hl. simpl in Hl.
  pose proof (proc_loop_shape data pprepare p pre m) as Hs.
  rewrite Hpre in Hs. simpl in Hs.
  assert (Hc1 : choose m1 p (Z.to_nat (num e)) = Some c)
    by (by rewrite (choose_same_shape m m1 _ _ Hs)).
  assert (Hb1 : bound (deref m1 c) = true).
  { destruct Hs as [Hs _]. destruct (Hs c) as [_ ->]. exact Hb. }
  pose proof (choose_Some _ _ _ _ Hc1) as Hlt.
  apply lookup_lt_is_Some in Hlt as [param Hv].
  rewrite (proc_elem_filled _ _ _ _ _ _ _ H0 Hc1 Hv) in Hl.
  rewrite Hb1 in Hl. cbv zeta in Hl.
  destruct (pprepare_replace (opt e) param) as [_ Hp].
  exists (fst (pprepare (opt e) param true)). split; [|exact Hp].
  match type of Hl with ploop p post ?m2 = _ =>
    pose proof (proc_loop_evolves p post m2) as [_ Hst] end.
  rewrite Hl in Hst. simpl in Hst. apply Hst; [|by left].
  unfold write. rewrite deref_with_buf, deref_store_value.
  rewrite decide_True by done. rewrite deref_with_buf. simpl.
  apply list_lookup_insert_eq. by eapply lookup_lt_Some.
Qed.

(** A placeholder filled from a bound list leaves its value processed. *)
Lemma proc_loop_marks p elems (m mf : Mem V) e c :
  ploop p elems m = (mf, None) ->
  In e elems -> 0 <= num e ->
  choose m p (Z.to_nat (num e)) = Some c ->
  bound (deref m c) = true ->
  exists v, values (deref mf c) !! Z.to_nat (num e) = Some v /\
            processed v = true.
Proof.
  revert m. induction elems as [|e0 elems IH]; intros m; simpl; [tauto|].
  intros Hl Hin H0 Hc Hb.
  pose proof (proc_elem_evolves p e0 m) as Hev.
  destruct (pelem p e0 m) as [m1 [x|]] eqn:E0; [discriminate|].
  simpl in Hev.
  destruct Hin as [->|Hin].
  - pose proof (choose_Some _ _ _ _ Hc) as Hlt.
    apply lookup_lt_is_Some in Hlt as [param Hv].
    rewrite (proc_elem_filled _ _ _ _ _ _ _ H0 Hc Hv) in E0.
    injection E0 as E0. rewrite Hb in E0.
    destruct (pprepare_replace (opt e) param) as [_ Hp].
    exists (fst (pprepare (opt e) param true)). split; [|exact Hp].
    pose proof (proc_loop_evolves p elems m1) as [_ Hst].
    rewrite Hl in Hst. simpl in Hst. apply Hst; [|by left].
    subst m1. unfold write. rewrite deref_with_buf, deref_store_value.
    rewrite decide_True by done. rewrite deref_with_buf. simpl.
    apply list_lookup_insert_eq. by eapply lookup_lt_Some.
  - destruct Hev as [Hs _].
    apply (IH m1 Hl Hin H0).
    + by rewrite (choose_same_shape m m1 _ _ Hs).
    + destruct Hs as [Hs _]. destruct (Hs c) as [_ ->]. exact Hb.
Qed.

End ProcReplay.

(** ** pprepare in the two revisions *)

Lemma V3_pprepare_processed esc o S r :
  V3.is_processed S = true -> V3.pprepare esc o S r = (S, same_object).
Proof. intros H. unfold V3.pprepare. by rewrite H. Qed.

Lemma V3_pprepare_replace esc o S :
  snd (V3.pprepare esc o S true) = same_object /\
  V3.is_processed (fst (V3.pprepare esc o S true)) = true.
Proof.
  unfold V3.pprepare. destruct (V3.is_processed S) eqn:E; [done|].
  destruct (is_char o "q"); [done|].
  destruct (is_char o "Q" && V3.quote_q S); done.
Qed.

Lemma V3_pprepare_keep esc o S : fst (V3.pprepare esc o S false) = S.
Proof.
  unfold V3.pprepare. destruct (V3.is_processed S); [done|].
  destruct (is_char o "q"); [done|].
  destruct (is_char o "Q" && V3.quote_q S); done.
Qed.

Lemma V2_pprepare_processed esc o S r :
  V2.processed S = true -> V2.pprepare esc o S r = (S, same_object).
Proof. intros H. unfold V2.pprepare. by rewrite H. Qed.

Lemma V2_pprepare_replace esc o S :
  snd (V2.pprepare esc o S true) = same_object /\
  V2.processed (fst (V2.pprepare esc o S true)) = true.
Proof.
  unfold V2.pprepare. destruct (V2.processed S) eqn:E; [done|].
  destruct (is_char o "r" || is_char o "q" && V2.is_string S); [done|].
  destruct (is_char o "R" || is_char o "Q" && V2.is_string S); done.
Qed.

Lemma V2_pprepare_keep esc o S : fst (V2.pprepare esc o S false) = S.
Proof.
  unfold V2.pprepare. destruct (V2.processed S); [done|].
  destruct (is_char o "r" || is_char o "q" && V2.is_string S); [done|].
  destruct (is_char o "R" || is_char o "Q" && V2.is_string S); done.
Qed.

(** A second pass of proc ends as the first did and changes nothing,
    whether the first pass threw or not. *)
Lemma V3_proc_twice (esc : string -> string) p
    (m mf : Mem V3.SQLTypeAdapter) r :
  V3.proc esc p m = (mf, r) -> V3.proc esc p mf = (mf, r).
Proof.
  apply (proc_twice V3.data V3.is_processed (V3.pprepare esc)
           (V3_pprepare_processed esc) (V3_pprepare_replace esc)
           (V3_pprepare_keep esc)).
Qed.

Lemma V2_proc_twice (esc : string -> string) p (m mf : Mem V2.SQLString) r :
  V2.proc esc p m = (mf, r) -> V2.proc esc p mf = (mf, r).
Proof.
  apply (proc_twice V2.data V2.processed (V2.pprepare esc)
           (V2_pprepare_processed esc) (V2_pprepare_replace esc)
           (V2_pprepare_keep esc)).
Qed.

(** ** The claims *)

(** C1. Once a pass of proc has substituted, through option q, a value
    of a bound call-site list (the loop reached its placeholder and the
    position is below the size of the list), the value is processed;
    pprepare then returns it as it is whatever the option, and a second
    pass of proc over the same list ends as the first did and leaves
    the list and the rendered text unchanged. *)
Theorem C1_second_pass_unchanged (esc : string -> string)
    (m m1 mf : Mem V3.SQLTypeAdapter) (r : option Exn)
    (pre post : list SQLParseElement) (e : SQLParseElement) :
  bound (call_parms m) = true ->
  parse_elems_ (the_query m) = pre ++ e :: post ->
  proc_loop V3.data (V3.pprepare esc) to_call_parms pre (clear_sbuffer m)
    = (m1, None) ->
  opt e = "q"%char ->
  0 <= num e ->
  (Z.to_nat (num e) < length (values (call_parms m)))%nat ->
  V3.proc esc to_call_parms m = (mf, r) ->
  exists v,
    values (call_parms mf) !! Z.to_nat (num e) = Some v /\
    V3.is_processed v = true /\
    (forall o replace, V3.pprepare esc o v replace = (v, same_object)) /\
    V3.proc esc to_call_parms mf = (mf, r).
Proof.
  intros Hb He Hpre _ H0 Hlt Hp.
  assert (Hc : choose (clear_sbuffer m) to_call_parms (Z.to_nat (num e))
               = Some to_call_parms).
  { unfold choose. simpl. apply Nat.ltb_lt in Hlt. by rewrite Hlt. }
  pose proof Hp as Hl. unfold V3.proc, proc in Hl. rewrite He in Hl.
  destruct (proc_loop_marks_at V3.data V3.is_processed (V3.pprepare esc)
              (V3_pprepare_processed esc) (V3_pprepare_replace esc)
              (V3_pprepare_keep esc)
              to_call_parms pre e post _ m1 mf r to_call_parms
              Hpre Hl H0 Hc Hb)
    as (v & Hv & Hpv).
  exists v. split; [exact Hv|]. split; [exact Hpv|]. split.
  - intros o replace. by apply V3_pprepare_processed.
  - apply (V3_proc_twice esc _ _ _ _ Hp).
Qed.

Lemma C1_second_pass_unchanged_witness :
  exists v,
    values (call_parms (fst (V3.proc sample_escape to_call_parms c1_mem)))
      !! Z.to_nat 0 = Some v /\
    V3.is_processed v = true /\
    (forall o replace,
       V3.pprepare sample_escape o v replace = (v, same_object)) /\
    V3.proc sample_escape to_call_parms
      (fst (V3.proc sample_escape to_call_parms c1_mem)) =
    (fst (V3.proc sample_escape to_call_parms c1_mem), None).
Proof.
  apply (C1_second_pass_unchanged sample_escape c1_mem
           (clear_sbuffer c1_mem)
           (fst (V3.proc sample_escape to_call_parms c1_mem)) None
           [] [mkElem EmptyString " " (-1)] (mkElem "name = " "q" 0)).
  - reflexivity.
  - vm_compute. reflexivity.
  - reflexivity.
  - reflexivity.
  - simpl. lia.
  - simpl. lia.
  - vm_compute. reflexivity.
Defined.

(** The order in which a placeholder is resolved, for an element whose
    stored position is not negative: the value of the list proc was
    given when the position is below its size, else the stored default
    when the position is below the size of the defaults, else " ERROR"
    is written and BadParamCount thrown, whatever throw_exceptions
    says. The text written is given in full. *)
Lemma placeholder_resolution (esc : string -> string) (p : parms_ptr)
    (m : Mem V3.SQLTypeAdapter) (e : SQLParseElement) :
  0 <= num e ->
  let n := Z.to_nat (num e) in
  let r := proc_elem V3.data (V3.pprepare esc) p e m in
  match values (deref m p) !! n with
  | Some v =>
      snd r = None /\
      buf (fst r) =
        (buf m +:+ before e) +:+
        rendered V3.data (V3.pprepare esc (opt e) v (bound (deref m p)))
  | None =>
      match values (template_defaults (the_query m)) !! n with
      | Some v =>
          snd r = None /\
          buf (fst r) =
            (buf m +:+ before e) +:+
            rendered V3.data
              (V3.pprepare esc (opt e) v
                 (bound (template_defaults (the_query m))))
      | None =>
          snd r = Some BadParamCount /\
          buf (fst r) = (buf m +:+ before e) +:+ " ERROR" /\
          (In e (parse_elems_ (the_query m)) ->
           forall te,
             snd (V3.proc esc p
                    (mkMem (with_exceptions (the_query m) te) (call_parms m)))
             = Some BadParamCount)
      end
  end.
Proof.
  intros H0 n r. subst n r.
  pose proof (choose_lookup m p (Z.to_nat (num e))) as Hc.
  destruct (values (deref m p) !! Z.to_nat (num e)) as [v|] eqn:E1.
  { rewrite (proc_elem_filled _ _ _ _ _ _ _ H0 Hc E1). cbv zeta. cbn [fst snd].
    split; [reflexivity|]. unfold write.
    by rewrite buf_with_buf, buf_store_value, buf_with_buf. }
  destruct (values (template_defaults (the_query m)) !! Z.to_nat (num e))
    as [v|] eqn:E2.
  { rewrite (proc_elem_filled _ _ _ _ _ to_template_defaults _ H0 Hc E2).
    cbv zeta. cbn [fst snd deref].
    split; [reflexivity|]. unfold write.
    by rewrite buf_with_buf, buf_store_value, buf_with_buf. }
  assert (Hu : unresolved m p e).
  { split; [exact H0|]. apply lookup_ge_None in E1, E2.
    destruct p; simpl in *; split; assumption. }
  rewrite (proc_elem_unresolved _ _ p e m Hu). cbn [fst snd].
  split; [reflexivity|]. split.
  { unfold write. by rewrite !buf_with_buf. }
  intros Hin te. unfold V3.proc, proc.
  apply proc_loop_throws_iff. apply Exists_exists. exists e.
  split; [apply list_elem_of_In; exact Hin|]. split; [exact H0|].
  destruct Hu as (_ & H1 & H2). destruct p; simpl in *; split; assumption.
Qed.

(** The three cases on "a %0q b %1q c %2 d" with one value in the
    caller's list and two stored defaults. *)
Lemma placeholder_resolution_examples :
  buf (fst (proc_elem V3.data (V3.pprepare sample_escape) to_call_parms
              (mkElem "a " "q" 0) (with_buf ex_mem EmptyString)))
    = "a 'it\'s'"%string /\
  buf (fst (proc_elem V3.data (V3.pprepare sample_escape) to_call_parms
              (mkElem " b " "q" 1) (with_buf ex_mem EmptyString)))
    = " b 'd1'"%string /\
  proc_elem V3.data (V3.pprepare sample_escape) to_call_parms
    (mkElem " c " " " 2) (with_buf ex_mem EmptyString)
    = (with_buf ex_mem " c  ERROR", Some BadParamCount).
Proof.
  pose proof (placeholder_resolution sample_escape to_call_parms
                (with_buf ex_mem EmptyString) (mkElem "a " "q" 0)
                ltac:(simpl; lia)) as H1.
  pose proof (placeholder_resolution sample_escape to_call_parms
                (with_buf ex_mem EmptyString) (mkElem " b " "q" 1)
                ltac:(simpl; lia)) as H2.
  cbv zeta in H1, H2.
  split; [exact (proj2 H1)|]. split; [exact (proj2 H2)|].
  vm_compute. reflexivity.
Qed.

(** C7, as the claim states it, fails on src/unnamed/part_001: the
    placeholder %1 of ex_mem, with no option, is filled from the stored
    defaults, which are not bound, and pprepare returns the default
    itself: no new temporary value is produced. *)
Lemma C7_counterexample :
  choose ex_mem to_call_parms 1 = Some to_template_defaults /\
  values (template_defaults (the_query ex_mem)) !! 1%nat
    = Some (V3.of_string "d1") /\
  bound (template_defaults (the_query ex_mem)) = false /\
  V3.pprepare sample_escape " " (V3.of_string "d1") false
    = (V3.of_string "d1", same_object) /\
  (forall t, snd (V3.pprepare sample_escape " " (V3.of_string "d1") false)
             <> new_object t).
Proof. repeat split; try reflexivity. intros t. discriminate. Qed.

(** C7, amended. When the list a placeholder is filled from is bound,
    pprepare returns the value itself: the formatted value takes the
    place of the original in the list and is marked processed. When the
    list is not bound (the stored defaults), the list stays exactly as
    it was; a new object is produced when option q, or option Q on a
    value whose type is quoted, formats a value not yet processed, and
    otherwise the stored value itself is written. *)
Theorem C7_replace_or_temporary (esc : string -> string) (p c : parms_ptr)
    (m : Mem V3.SQLTypeAdapter) (e : SQLParseElement)
    (param : V3.SQLTypeAdapter) :
  0 <= num e ->
  choose m p (Z.to_nat (num e)) = Some c ->
  values (deref m c) !! Z.to_nat (num e) = Some param ->
  let r := V3.pprepare esc (opt e) param (bound (deref m c)) in
  let m' := fst (proc_elem V3.data (V3.pprepare esc) p e m) in
  buf m' = (buf m +:+ before e) +:+ rendered V3.data r /\
  (forall c', c' <> c -> deref m' c' = deref m c') /\
  if bound (deref m c)
  then snd r = same_object /\
       deref m' c = set_value (deref m c) (Z.to_nat (num e)) (fst r) /\
       values (deref m' c) !! Z.to_nat (num e) = Some (fst r) /\
       V3.is_processed (fst r) = true /\
       V3.data (fst r) = rendered V3.data r
  else deref m' c = deref m c /\
       if negb (V3.is_processed param) &&
          (is_char (opt e) "q" || (is_char (opt e) "Q" && V3.quote_q param))
       then snd r = new_object (V3.of_string (rendered V3.data r))
       else r = (param, same_object).
Proof.
  intros H0 Hc Hv r m'. subst m'.
  rewrite (proc_elem_filled _ _ _ _ _ _ _ H0 Hc Hv). fold r. cbn [fst].
  unfold write.
  split; [by rewrite buf_with_buf, buf_store_value, buf_with_buf|].
  split.
  { intros c' Hne. rewrite deref_with_buf, deref_store_value.
    rewrite decide_False by done. by rewrite deref_with_buf. }
  rewrite deref_with_buf, deref_store_value, decide_True by done.
  rewrite deref_with_buf.
  destruct (bound (deref m c)) eqn:Eb.
  - destruct (V3_pprepare_replace esc (opt e) param) as [Hs Hp].
    fold r in Hs, Hp.
    split; [exact Hs|]. split; [reflexivity|]. split.
    { simpl. apply list_lookup_insert_eq. by eapply lookup_lt_Some. }
    split; [exact Hp|]. unfold rendered. by rewrite Hs.
  - pose proof (V3_pprepare_keep esc (opt e) param) as Hk. fold r in Hk.
    split.
    { rewrite Hk. unfold set_value. rewrite (list_insert_id _ _ _ Hv).
      by destruct (deref m c). }
    subst r. unfold V3.pprepare, rendered.
    destruct (V3.is_processed param); [reflexivity|].
    destruct (is_char (opt e) "q"); [reflexivity|].
    destruct (is_char (opt e) "Q" && V3.quote_q param); reflexivity.
Qed.

Lemma C7_replace_or_temporary_witness :
  (* the call-site value, bound: replaced in place *)
  (values (call_parms
     (fst (proc_elem V3.data (V3.pprepare sample_escape) to_call_parms
             (mkElem "a " "q" 0) ex_mem))) !! 0%nat
   = Some (V3.mkSTA "'it\'s'" true true true)) /\
  (* the default, not bound: a temporary, the default untouched *)
  (template_defaults (the_query
     (fst (proc_elem V3.data (V3.pprepare sample_escape) to_call_parms
             (mkElem " b " "q" 1) ex_mem)))
   = template_defaults (the_query ex_mem)).
Proof.
  split.
  - pose proof (C7_replace_or_temporary sample_escape to_call_parms
                  to_call_parms ex_mem (mkElem "a " "q" 0)
                  (V3.of_string "it's")) as H.
    destruct H as (_ & _ & H); [simpl; lia | reflexivity | reflexivity|].
    change (bound (deref ex_mem to_call_parms)) with true in H.
    destruct H as (_ & _ & H & _). exact H.
  - pose proof (C7_replace_or_temporary sample_escape to_call_parms
                  to_template_defaults ex_mem (mkElem " b " "q" 1)
                  (V3.of_string "d1")) as H.
    destruct H as (_ & _ & H); [simpl; lia | reflexivity | reflexivity|].
    change (bound (deref ex_mem to_template_defaults)) with false in H.
    destruct H as [H _]. exact H.
Defined.

(** C10. When proc throws, the buffer is not put back: it holds what
    the loop wrote for the elements before the placeholder that cannot
    be filled, then the literal text before that placeholder, then
    " ERROR", whatever text the buffer held before the call; str hands
    the exception on with the memory in that state. *)
Theorem C10_buffer_after_failure (esc : string -> string) (p : parms_ptr)
    (m m' : Mem V3.SQLTypeAdapter) :
  V3.proc esc p m = (m', Some BadParamCount) ->
  exists pre e post m1,
    parse_elems_ (the_query m) = pre ++ e :: post /\
    proc_loop V3.data (V3.pprepare esc) p pre (clear_sbuffer m) = (m1, None) /\
    unresolved m p e /\
    buf m' = (buf m1 +:+ before e) +:+ " ERROR" /\
    V3.str esc p m = (m', inr BadParamCount) /\
    (forall b, V3.proc esc p (with_buf m b) = (m', Some BadParamCount)).
Proof.
  intros H. pose proof H as H'. unfold V3.proc, proc in H.
  destruct (proc_loop_thrown _ _ _ _ _ _ _ H)
    as (pre & e & post & m1 & He & Hpre & Hu & -> & _).
  exists pre, e, post, m1.
  split; [exact He|]. split; [exact Hpre|]. split.
  { by apply (unresolved_same_shape m _ p e
                (same_shape_with_buf m EmptyString)). }
  split; [reflexivity|]. split.
  - unfold V3.str, str. rewrite bool_decide_eq_false_2.
    + unfold proc. by rewrite H.
    + rewrite He. by destruct pre.
  - intros b. exact H'.
Qed.

Lemma C10_buffer_after_failure_witness :
  V3.proc sample_escape to_call_parms ex_mem =
    (fst (V3.proc sample_escape to_call_parms ex_mem), Some BadParamCount) /\
  buf (fst (V3.proc sample_escape to_call_parms ex_mem))
    = "a 'it\'s' b 'd1' c  ERROR"%string /\
  exists pre e post m1,
    parse_elems_ (the_query ex_mem) = pre ++ e :: post /\
    proc_loop V3.data (V3.pprepare sample_escape) to_call_parms pre
      (clear_sbuffer ex_mem) = (m1, None) /\
    unresolved ex_mem to_call_parms e /\
    buf (fst (V3.proc sample_escape to_call_parms ex_mem))
      = (buf m1 +:+ before e) +:+ " ERROR" /\
    V3.str sample_escape to_call_parms ex_mem =
      (fst (V3.proc sample_escape to_call_parms ex_mem), inr BadParamCount) /\
    (forall b, V3.proc sample_escape to_call_parms (with_buf ex_mem b) =
       (fst (V3.proc sample_escape to_call_parms ex_mem), Some BadParamCount)).
Proof.
  split; [vm_compute; reflexivity|]. split; [vm_compute; reflexivity|].
  apply (C10_buffer_after_failure sample_escape to_call_parms ex_mem
           (fst (V3.proc sample_escape to_call_parms ex_mem))).
  vm_compute. reflexivity.
Defined.

(** ** The result calls *)

(** C3, as the claim states it, fails on src/trunk/lib/query.cpp: the
    statement runs, no result handle comes back, no error is pending,
    exceptions are enabled, and store throws BadQuery. *)
Lemma C3_counterexample :
  Trunk.lock ok_trunk = false /\
  Trunk.mysql_query ok_trunk "UPDATE t SET a = 1" = 0 /\
  Trunk.mysql_store_result ok_trunk = None /\
  Trunk.errnum ok_trunk = 0 /\
  snd (Trunk.store ok_trunk true "UPDATE t SET a = 1") = throws BadQuery /\
  snd (Trunk.store ok_trunk true "UPDATE t SET a = 1") <> returns Result_empty.
Proof. repeat split; try reflexivity. discriminate. Qed.

(** C3, amended. In src/unnamed/part_001 and in src/lib/query.cpp a
    store whose statement ran, with no result handle and no pending
    error code, returns the empty Result also when exceptions are
    enabled; the call throws BadQuery only with a pending error code and
    exceptions enabled, and with exceptions disabled it never throws.
    In src/trunk/lib/query.cpp the same call throws BadQuery whenever
    exceptions are enabled and returns the empty Result only when they
    are disabled. *)
Theorem C3_store_empty_or_error
    (d : V3.DBDriver) (c2 : V2.Connection) (ct : Trunk.Connection)
    (str : string) (q3 : Query V3.SQLTypeAdapter) (q2 : Query V2.SQLString)
    (te : bool) :
  V3.execute d str = true -> V3.store_result d = None ->
  V2.lock c2 = false -> V2.mysql_real_query c2 str = 0 ->
  V2.mysql_store_result c2 = None ->
  Trunk.lock ct = false -> Trunk.mysql_query ct str = 0 ->
  Trunk.mysql_store_result ct = None ->
  snd (V3.store d str q3) =
    (if negb (V3.errnum d =? 0) && throw_exceptions q3
     then throws BadQuery else returns Result_empty) /\
  snd (V2.store c2 str q2) =
    (if negb (V2.errnum c2 =? 0) && throw_exceptions q2
     then throws BadQuery else returns Result_empty) /\
  snd (Trunk.store ct te str) =
    (if te then throws BadQuery else returns Result_empty).
Proof.
  intros He Hr Hl2 Hq2 Hr2 Hlt Hqt Hrt. split; [|split].
  - unfold V3.store, V3.result_empty.
    destruct (length (parse_elems_ (with_copacetic q3 (V3.execute d str)))
              =? 0)%nat;
      simpl; rewrite He, Hr; simpl;
      destruct (V3.errnum d =? 0), (throw_exceptions q3); reflexivity.
  - unfold V2.store. rewrite Hl2, Hq2. simpl. rewrite Hr2.
    destruct (V2.errnum c2 =? 0), (throw_exceptions q2); reflexivity.
  - unfold Trunk.store. rewrite Hlt, Hqt. simpl. rewrite Hrt.
    destruct te; reflexivity.
Qed.

Lemma C3_store_empty_or_error_witness :
  snd (V3.store ok_driver "UPDATE t SET a = 1" plain_query)
    = returns Result_empty /\
  snd (V2.store ok_conn "UPDATE t SET a = 1" plain_query)
    = returns Result_empty /\
  snd (Trunk.store ok_trunk true "UPDATE t SET a = 1") = throws BadQuery.
Proof.
  apply (C3_store_empty_or_error ok_driver ok_conn ok_trunk
           "UPDATE t SET a = 1" plain_query
           plain_query true); reflexivity.
Defined.

(** C9, as the claim states it, fails on src/lib/query.cpp: the driver
    reports that no result set remains and no error, exceptions are
    enabled, and store_next throws EndOfResultSets. *)
Lemma C9_counterexample :
  V2.lock ok_conn = false /\
  V2.mysql_next_result ok_conn = -1 /\
  V2.errnum ok_conn = 0 /\
  V2.store_next ok_conn plain_query = throws EndOfResultSets /\
  V2.store_next ok_conn plain_query <> returns Result_empty.
Proof. repeat split; try reflexivity. discriminate. Qed.

(** C9, amended. In src/unnamed/part_001, store_next with no further
    result set and no error returns the empty Result, exceptions enabled
    or not, and it throws, always BadQuery, only when the driver
    reports an error (the error answer of next_result or a pending
    error code). In src/lib/query.cpp, with the lock free, the same
    outcome of the driver returns the empty Result only when exceptions
    are disabled; with exceptions enabled it throws EndOfResultSets. *)
Theorem C9_store_next_end_of_results
    (d : V3.DBDriver) (c2 : V2.Connection)
    (q3 : Query V3.SQLTypeAdapter) (q2 : Query V2.SQLString) :
  V3.next_result d = V3.nr_last_result -> V3.errnum d = 0 ->
  V2.lock c2 = false -> V2.mysql_next_result c2 < 0 ->
  V3.store_next d q3 = returns Result_empty /\
  (forall d' q' x, V3.store_next d' q' = throws x ->
     x = BadQuery /\ throw_exceptions q' = true /\
     (V3.next_result d' = V3.nr_error \/ V3.errnum d' <> 0)) /\
  V2.store_next c2 q2 =
    (if throw_exceptions q2 then throws EndOfResultSets
     else returns Result_empty).
Proof.
  intros Hn He Hl Hr. split; [|split].
  - unfold V3.store_next. rewrite Hn, He.
    destruct (throw_exceptions q3); reflexivity.
  - intros d' q' x. unfold V3.store_next.
    destruct (V3.next_result d'), (V3.store_result d'),
      (throw_exceptions q'), (Z.eqb_spec (V3.errnum d') 0);
      simpl; intros [= <-] || discriminate; auto.
  - unfold V2.store_next. rewrite Hl.
    destruct (Z.eqb_spec (V2.mysql_next_result c2) 0); [lia|].
    destruct (Z.ltb_spec 0 (V2.mysql_next_result c2)); [lia|].
    reflexivity.
Qed.

Lemma C9_store_next_end_of_results_witness :
  V3.store_next ok_driver plain_query = returns Result_empty /\
  V2.store_next ok_conn plain_query = throws EndOfResultSets.
Proof.
  destruct (C9_store_next_end_of_results ok_driver ok_conn
              plain_query plain_query)
    as (H3 & _ & H2); [reflexivity | reflexivity | reflexivity | simpl; lia |].
  split; [exact H3 | exact H2].
Defined.

(** ** The quoting policy of pprepare *)

Lemma append_empty_r (s : string) : s +:+ EmptyString = s.
Proof.
  induction s as [|c s IH]; [reflexivity|].
  change (String c (s +:+ EmptyString) = String c s). by rewrite IH.
Qed.

(** C4, as the claim states it, fails on src/lib/query.cpp: a
    string-typed value whose escaping was suppressed (dont_escape) is
    escaped all the same under option q. *)
Lemma C4_counterexample :
  rendered V2.data
    (V2.pprepare sample_escape "q" ex_dont_escape false)
  = "'it\'s'"%string /\
  rendered V2.data
    (V2.pprepare sample_escape "q" ex_dont_escape false)
  <> "'it's'"%string.
Proof. split; [reflexivity | discriminate]. Qed.

(** C4, amended. For a value that is not yet processed. In
    src/unnamed/part_001, option q writes the bytes between single
    quotes when the value's type is quoted, and escapes them with the
    driver's routine when its type is escaped (quote-only when it is
    quoted but not escaped); a value whose type is neither is written as
    it is; option Q puts the unescaped bytes between single quotes when
    the type is quoted. In src/lib/query.cpp, option q escapes and
    quotes every string-typed value, dont_escape or not, and writes a
    value that is not string-typed as it is; option Q quotes a
    string-typed value without escaping. *)
Theorem C4_quote_policy (esc : string -> string)
    (S : V3.SQLTypeAdapter) (T : V2.SQLString) (replace : bool) :
  V3.is_processed S = false ->
  V2.processed T = false ->
  rendered V3.data (V3.pprepare esc "q" S replace) =
    ((if V3.quote_q S then "'" else EmptyString) +:+
     (if V3.escape_q S then esc (V3.data S) else V3.data S)) +:+
    (if V3.quote_q S then "'" else EmptyString) /\
  rendered V3.data (V3.pprepare esc "Q" S replace) =
    (if V3.quote_q S then ("'" +:+ V3.data S) +:+ "'" else V3.data S) /\
  rendered V2.data (V2.pprepare esc "q" T replace) =
    (if V2.is_string T then ("'" +:+ c_str (esc (V2.data T))) +:+ "'"
     else V2.data T) /\
  rendered V2.data (V2.pprepare esc "Q" T replace) =
    (if V2.is_string T then ("'" +:+ V2.data T) +:+ "'" else V2.data T).
Proof.
  intros HS HT. unfold rendered, V3.pprepare, V2.pprepare.
  rewrite HS, HT.
  change (is_char "q" "q") with true. change (is_char "Q" "q") with false.
  change (is_char "q" "r") with false. change (is_char "Q" "r") with false.
  change (is_char "q" "R") with false. change (is_char "Q" "R") with false.
  change (is_char "q" "Q") with false. change (is_char "Q" "Q") with true.
  cbn [orb andb].
  repeat split.
  - destruct (V3.quote_q S), (V3.escape_q S), replace; simpl;
      rewrite ?append_empty_r; reflexivity.
  - destruct (V3.quote_q S), replace; reflexivity.
  - destruct (V2.is_string T), replace; reflexivity.
  - destruct (V2.is_string T), replace; reflexivity.
Qed.

Lemma C4_quote_policy_witness :
  rendered V3.data (V3.pprepare sample_escape "q" (V3.of_string "it's") false)
    = "'it\'s'"%string /\
  rendered V3.data
    (V3.pprepare sample_escape "q" (V3.mkSTA "42" false false false) false)
    = "42"%string /\
  rendered V2.data
    (V2.pprepare sample_escape "q" ex_dont_escape false)
    = "'it\'s'"%string.
Proof.
  destruct (C4_quote_policy sample_escape (V3.of_string "it's")
              ex_dont_escape false)
    as (H1 & _ & H2 & _); [reflexivity | reflexivity |].
  destruct (C4_quote_policy sample_escape (V3.mkSTA "42" false false false)
              ex_dont_escape false)
    as (H3 & _); [reflexivity | reflexivity |].
  split; [exact H1 | split; [exact H3 | exact H2]].
Defined.

(** ** The parser on concrete templates *)

(** C5: the code at the failing input. The template "%255" has one
    placeholder, and parse ends with two elements at position -1: the
    position 255 does not fit the signed char it is stored in. *)
Theorem C5_two_elements_at_minus_one (b te : bool) :
  option_map parse_elems_ (V3.parse (new_Query b te "%255")) =
    Some [mkElem EmptyString " " (-1); mkElem EmptyString " " (-1)] /\
  option_map parse_elems_ (V2.parse (new_Query b te "%255")) =
    Some [mkElem EmptyString " " (-1); mkElem EmptyString " " (-1)].
Proof. split; vm_compute; reflexivity. Qed.

(** C6: the code at the failing input. The template "%200q rest" has
    the three digits 200 after the percent sign, and parse stores the
    position -56; str then takes the element for literal text and writes
    no value for it, however many values the list has. *)
Theorem C6_position_200_wraps (esc : string -> string) (b te : bool)
    (p : SQLQueryParms V3.SQLTypeAdapter) :
  exists q,
    V3.parse (new_Query b te "%200q rest") = Some q /\
    parse_elems_ q = [mkElem EmptyString "q" (-56); mkElem " rest" " " (-1)] /\
    snd (V3.str esc to_call_parms (mkMem q p)) = inl " rest"%string /\
    option_map parse_elems_ (V2.parse (new_Query b te "%200q rest")) =
      Some [mkElem EmptyString "q" (-56); mkElem " rest" " " (-1)].
Proof.
  exists (mkQuery "%200q rest"
            [mkElem EmptyString "q" (-56); mkElem " rest" " " (-1)]
            [] ∅ (mkParms [] b) te true).
  split; [vm_compute; reflexivity|]. split; [reflexivity|].
  split; vm_compute; reflexivity.
Qed.

(** C2: the code at the failing input. The template "%200q rest" has
    one placeholder, at position 200, stored as -56. Whatever the
    caller's list holds (nothing, or more than 200 values) and with no
    stored default, proc writes the literal text only: it substitutes
    no value and does not throw BadParamCount, in both revisions. *)
Theorem C2_wrapped_placeholder_not_resolved (esc : string -> string)
    (b te : bool)
    (p3 : SQLQueryParms V3.SQLTypeAdapter) (p2 : SQLQueryParms V2.SQLString) :
  (exists q,
     V3.parse (new_Query b te "%200q rest") = Some q /\
     values (template_defaults q) = [] /\
     V3.proc esc to_call_parms (mkMem q p3) =
       (with_buf (mkMem q p3) " rest", None)) /\
  (exists q,
     V2.parse (new_Query b te "%200q rest") = Some q /\
     values (template_defaults q) = [] /\
     V2.proc esc to_call_parms (mkMem q p2) =
       (with_buf (mkMem q p2) " rest", None)).
Proof.
  split.
  - exists (mkQuery "%200q rest"
              [mkElem EmptyString "q" (-56); mkElem " rest" " " (-1)]
              [] ∅ (mkParms [] b) te true).
    split; [vm_compute; reflexivity|]. split; reflexivity.
  - exists (mkQuery "%200q rest"
              [mkElem EmptyString "q" (-56); mkElem " rest" " " (-1)]
              [] ∅ (mkParms [] b) te true).
    split; [vm_compute; reflexivity|]. split; reflexivity.
Qed.

(** C8. Parsing "100%% done" gives the single trailing element with
    the text "100% done" and no placeholder element, and rendering it
    gives "100% done", in both revisions. *)
Theorem C8_percent_escape (esc : string -> string) (b te : bool)
    (p3 : SQLQueryParms V3.SQLTypeAdapter) (p2 : SQLQueryParms V2.SQLString) :
  (exists q,
     V3.parse (new_Query b te "100%% done") = Some q /\
     parse_elems_ q = [mkElem "100% done" " " (-1)] /\
     snd (V3.str esc to_call_parms (mkMem q p3)) = inl "100% done"%string) /\
  (exists q,
     V2.parse (new_Query b te "100%% done") = Some q /\
     parse_elems_ q = [mkElem "100% done" " " (-1)] /\
     snd (V2.str esc to_call_parms (mkMem q p2)) = inl "100% done"%string).
Proof.
  split.
  - exists (mkQuery "100%% done" [mkElem "100% done" " " (-1)] [] ∅
              (mkParms [] b) te true).
    split; [vm_compute; reflexivity|]. split; [reflexivity|].
    vm_compute; reflexivity.
  - exists (mkQuery "100%% done" [mkElem "100% done" " " (-1)] [] ∅
              (mkParms [] b) te true).
    split; [vm_compute; reflexivity|]. split; [reflexivity|].
    vm_compute; reflexivity.
Qed.

(** ** The same facts for src/lib/query.cpp *)

Lemma V2_second_pass_unchanged (esc : string -> string)
    (m mf : Mem V2.SQLString) (e : SQLParseElement) :
  bound (call_parms m) = true ->
  V2.proc esc to_call_parms m = (mf, None) ->
  In e (parse_elems_ (the_query m)) ->
  0 <= num e ->
  (Z.to_nat (num e) < length (values (call_parms m)))%nat ->
  exists v,
    values (call_parms mf) !! Z.to_nat (num e) = Some v /\
    V2.processed v = true /\
    (forall o r, V2.pprepare esc o v r = (v, same_object)) /\
    V2.proc esc to_call_parms mf = (mf, None).
Proof.
  intros Hb Hp Hin H0 Hlt.
  assert (Hc : choose (clear_sbuffer m) to_call_parms (Z.to_nat (num e))
               = Some to_call_parms).
  { unfold choose. simpl. apply Nat.ltb_lt in Hlt. by rewrite Hlt. }
  destruct (proc_loop_marks V2.data V2.processed (V2.pprepare esc)
              (V2_pprepare_processed esc) (V2_pprepare_replace esc)
              (V2_pprepare_keep esc)
              to_call_parms _ _ mf e to_call_parms Hp Hin H0 Hc Hb)
    as (v & Hv & Hpv).
  exists v. split; [exact Hv|]. split; [exact Hpv|]. split.
  - intros o r. by apply V2_pprepare_processed.
  - apply (proc_twice V2.data V2.processed (V2.pprepare esc)
             (V2_pprepare_processed esc) (V2_pprepare_replace esc)
             (V2_pprepare_keep esc) _ _ _ _ Hp).
Qed.

Lemma V2_proc_throws_iff (esc : string -> string) p (m : Mem V2.SQLString) :
  snd (V2.proc esc p m) = Some BadParamCount <->
  Exists (unresolved m p) (parse_elems_ (the_query m)).
Proof.
  unfold V2.proc, proc. rewrite proc_loop_throws_iff.
  split; intros H; (eapply Exists_impl; [exact H|]); intros e He;
    by apply (unresolved_same_shape m _ p e
                (same_shape_with_buf m EmptyString)).
Qed.

Lemma V3_proc_throws_iff (esc : string -> string) p
    (m : Mem V3.SQLTypeAdapter) :
  snd (V3.proc esc p m) = Some BadParamCount <->
  Exists (unresolved m p) (parse_elems_ (the_query m)).
Proof.
  unfold V3.proc, proc. rewrite proc_loop_throws_iff.
  split; intros H; (eapply Exists_impl; [exact H|]); intros e He;
    by apply (unresolved_same_shape m _ p e
                (same_shape_with_buf m EmptyString)).
Qed.

Lemma V2_buffer_after_failure (esc : string -> string) (p : parms_ptr)
    (m m' : Mem V2.SQLString) x :
  V2.proc esc p m = (m', Some x) ->
  x = BadParamCount /\
  exists pre e post m1,
    parse_elems_ (the_query m) = pre ++ e :: post /\
    proc_loop V2.data (V2.pprepare esc) p pre (clear_sbuffer m) = (m1, None) /\
    unresolved m p e /\
    buf m' = (buf m1 +:+ before e) +:+ " ERROR".
Proof.
  intros H. unfold V2.proc, proc in H.
  destruct (proc_loop_thrown _ _ _ _ _ _ _ H)
    as (pre & e & post & m1 & He & Hpre & Hu & -> & ->).
  split; [reflexivity|]. exists pre, e, post, m1.
  split; [exact He|]. split; [exact Hpre|]. split; [|reflexivity].
  by apply (unresolved_same_shape m _ p e
              (same_shape_with_buf m EmptyString)).
Qed.

(** ** What parse does with the digits *)

Lemma to_schar_small (z : Z) : 0 <= z < 128 -> to_schar z = z.
Proof. intros H. unfold to_schar. rewrite Z.mod_small; lia. Qed.

Lemma to_schar_range (z : Z) : -128 <= to_schar z <= 127.
Proof. unfold to_schar. pose proof (Z.mod_pos_bound (z + 128) 256). lia. Qed.

Lemma digit_plain (d : ascii) :
  isdigit d = true ->
  is_char d "%" = false /\ is_char d ":" = false /\
  V3.is_option_char d = false /\ V2.is_option_char d = false.
Proof.
  intros Hd. unfold V3.is_option_char, V2.is_option_char, is_char.
  repeat split;
    repeat match goal with
           | |- context [Ascii.eqb ?a ?b] =>
               destruct (Ascii.eqb_spec a b); subst; try discriminate
           end; reflexivity.
Qed.

(** After three digits parse takes no more: a fourth digit stays in the
    input and starts the next literal text. *)
Lemma parse_iter_stops_after_three_digits (is_opt : ascii -> bool)
    (st : ParseState) d1 d2 d3 d4 rest :
  isdigit d1 = true -> isdigit d2 = true ->
  isdigit d3 = true -> isdigit d4 = true ->
  is_opt d4 = false ->
  ps_s st = String "%" (String d1 (String d2 (String d3 (String d4 rest)))) ->
  parse_iter is_opt st =
  Some (mkPS (String d4 rest) EmptyString
          (ps_elems st ++
           [mkElem (ps_str st) " "
              (to_schar
                 (atoi (String d1 (String d2 (String d3 EmptyString)))))])
          (ps_names st) (ps_nums st)).
Proof.
  intros H1 H2 H3 H4 Ho Hs.
  destruct (digit_plain _ H1) as (E1 & _ & _ & _).
  destruct (digit_plain _ H4) as (_ & E4 & _ & _).
  unfold parse_iter, scan_digits. rewrite Hs. cbn [cur adv].
  change (is_char "%" "%") with true. cbn iota.
  rewrite E1, H1, H2, H3. cbn -[to_schar atoi is_char].
  rewrite Ho. cbn -[to_schar atoi is_char].
  rewrite E4. reflexivity.
Qed.

(** A doubled percent sign becomes one percent sign of the literal text. *)
Lemma parse_iter_percent_percent (is_opt : ascii -> bool)
    (st : ParseState) rest :
  ps_s st = String "%" (String "%" rest) ->
  parse_iter is_opt st =
  Some (mkPS rest (push_char (ps_str st) "%")
          (ps_elems st) (ps_names st) (ps_nums st)).
Proof. intros Hs. unfold parse_iter. rewrite Hs. reflexivity. Qed.

(** * Further properties of the code *)

(** ** Strings *)

Lemma append_cons (c : ascii) (s t : string) :
  String c s +:+ t = String c (s +:+ t).
Proof. reflexivity. Qed.

Lemma append_assoc_str (a b c : string) : (a +:+ b) +:+ c = a +:+ (b +:+ c).
Proof.
  induction a as [|x a IH]; [reflexivity|].
  rewrite !append_cons. by rewrite IH.
Qed.

Lemma push_char_append (str : string) (c : ascii) (t : string) :
  push_char str c +:+ t = str +:+ String c t.
Proof. unfold push_char. by rewrite append_assoc_str. Qed.

(** ** parse on text without placeholders *)

Section PlainText.

Variable is_opt : ascii -> bool.

Lemma parse_iter_plain (st : ParseState) c t :
  ps_s st = String c t ->
  plain_text (String c t) = true ->
  parse_iter is_opt st =
  Some (mkPS t (push_char (ps_str st) c)
          (ps_elems st) (ps_names st) (ps_nums st)).
Proof.
  intros Hs Hp. unfold parse_iter. rewrite Hs. cbn [cur adv].
  simpl in Hp. apply andb_prop in Hp as [Hp _].
  apply andb_prop in Hp as [_ Hp].
  destruct (is_char c "%") eqn:Ec; [|reflexivity].
  apply andb_prop in Hp as [H1 H2].
  apply negb_true_iff in H1, H2. rewrite H1, H2.
  apply Ascii.eqb_eq in Ec. by subst c.
Qed.

Lemma parse_loop_plain (fuel : nat) (s str : string) E N M :
  plain_text s = true ->
  (String.length s <= fuel)%nat ->
  parse_loop is_opt fuel (mkPS s str E N M) =
  at_NUL (mkPS EmptyString (str +:+ s) E N M).
Proof.
  revert s str. induction fuel as [|fuel IH]; intros s str Hp Hlen.
  - destruct s; simpl in Hlen; [|lia]. simpl. by rewrite append_empty_r.
  - destruct s as [|c t]; [simpl; by rewrite append_empty_r|].
    pose proof Hp as Hp'. simpl in Hp'.
    apply andb_prop in Hp' as [Hp' Ht]. apply andb_prop in Hp' as [Hc _].
    apply negb_true_iff in Hc.
    cbn [parse_loop ps_s cur]. rewrite Hc.
    rewrite (parse_iter_plain (mkPS (String c t) str E N M) c t eq_refl Hp).
    cbn [ps_str ps_elems ps_names ps_nums].
    rewrite IH; [|exact Ht|simpl in Hlen; lia].
    by rewrite push_char_append.
Qed.

Lemma parse_with_plain {V} (q : Query V) :
  plain_text (sbuffer_ q) = true ->
  parse_with is_opt q =
  Some (mkQuery (sbuffer_ q)
          (parse_elems_ q ++ [mkElem (sbuffer_ q) " " (-1)])
          (parsed_names_ q) (parsed_nums_ q)
          (template_defaults q) (throw_exceptions q) (copacetic_ q)).
Proof.
  intros Hp. unfold parse_with.
  rewrite parse_loop_plain by (assumption || lia). reflexivity.
Qed.

End PlainText.

(** X1. Query::parse on a template without placeholders. When the
    text in the buffer holds no NUL byte and every percent sign in it is
    followed by a character that is neither a digit nor a percent sign,
    parse (of src/unnamed/part_001 and of src/lib/query.cpp) appends
    exactly one element, the whole text with a space as option and
    position -1, and changes nothing else of the query: a lone percent
    sign is kept in the text as it is. *)
Theorem parse_plain_text (q3 : Query V3.SQLTypeAdapter) (q2 : Query V2.SQLString) :
  plain_text (sbuffer_ q3) = true ->
  plain_text (sbuffer_ q2) = true ->
  V3.parse q3 =
    Some (mkQuery (sbuffer_ q3)
            (parse_elems_ q3 ++ [mkElem (sbuffer_ q3) " " (-1)])
            (parsed_names_ q3) (parsed_nums_ q3)
            (template_defaults q3) (throw_exceptions q3) (copacetic_ q3)) /\
  V2.parse q2 =
    Some (mkQuery (sbuffer_ q2)
            (parse_elems_ q2 ++ [mkElem (sbuffer_ q2) " " (-1)])
            (parsed_names_ q2) (parsed_nums_ q2)
            (template_defaults q2) (throw_exceptions q2) (copacetic_ q2)).
Proof.
  intros H3 H2. unfold V3.parse, V2.parse.
  split; by apply parse_with_plain.
Qed.

Lemma parse_plain_text_witness :
  exists q,
    V3.parse (new_Query false true "SELECT 100% of it") = Some q /\
    parse_elems_ q = [mkElem "SELECT 100% of it" " " (-1)].
Proof.
  destruct (parse_plain_text (new_Query false true "SELECT 100% of it")
              (new_Query false true "SELECT 100% of it")) as [H _];
    [reflexivity | reflexivity |].
  eexists. split; [exact H | reflexivity].
Defined.

(** X2. Round trip of parse and str. For a template without
    placeholders (no NUL byte, every percent sign followed by neither a
    digit nor a percent sign) on a query with nothing parsed before,
    str after parse returns the template text unchanged, whatever list
    it is given, and leaves the query and the list as they were. *)
Theorem str_plain_text (esc : string -> string) (p : parms_ptr)
    (q : Query V3.SQLTypeAdapter) (cp : SQLQueryParms V3.SQLTypeAdapter) :
  plain_text (sbuffer_ q) = true ->
  parse_elems_ q = [] ->
  exists q',
    V3.parse q = Some q' /\
    V3.str esc p (mkMem q' cp) = (mkMem q' cp, inl (sbuffer_ q)).
Proof.
  intros Hp He.
  pose proof (parse_with_plain V3.is_option_char q Hp) as H.
  eexists. split; [exact H|]. rewrite He.
  destruct q as [b E N M d te co]. simpl in *. subst E.
  unfold V3.str, str, proc. simpl. reflexivity.
Qed.

Lemma str_plain_text_witness :
  exists q',
    V3.parse (new_Query false true "SELECT 100% of it") = Some q' /\
    V3.str sample_escape to_call_parms (mkMem q' (mkParms [] true)) =
      (mkMem q' (mkParms [] true), inl "SELECT 100% of it"%string).
Proof.
  apply (str_plain_text sample_escape to_call_parms
           (new_Query false true "SELECT 100% of it") (mkParms [] true));
    reflexivity.
Defined.

(** ** What parse stores *)

Section ParseInvariant.

Variable is_opt : ascii -> bool.

Lemma to_schar_bounds (z : Z) : -128 <= to_schar z <= 127.
Proof. apply to_schar_range. Qed.

Lemma parse_iter_appends (st st' : ParseState) :
  parse_iter is_opt st = Some st' ->
  ps_elems st' = ps_elems st \/
  exists e, ps_elems st' = ps_elems st ++ [e] /\ elem_ok is_opt e.
Proof.
  unfold parse_iter.
  destruct (is_char (cur (ps_s st)) "%"); [|intros [= <-]; by left].
  destruct (is_char (cur (adv (ps_s st))) "%"); [intros [= <-]; by left|].
  destruct (isdigit (cur (adv (ps_s st)))); [|intros [= <-]; by left].
  destruct (scan_digits (adv (ps_s st))) as [digits s2].
  intros H. right.
  destruct (is_opt (cur s2)) eqn:Eo; cbv zeta in H.
  - destruct (is_char (cur (adv s2)) ":").
    + destruct (scan_name EmptyString (adv (adv s2))) as [name s4].
      destruct (set_name _ _ _); [|discriminate]. injection H as <-.
      eexists. split; [reflexivity|]. split; [apply to_schar_bounds|by right].
    + injection H as <-.
      eexists. split; [reflexivity|]. split; [apply to_schar_bounds|by right].
  - destruct (is_char (cur s2) ":").
    + destruct (scan_name EmptyString (adv s2)) as [name s4].
      destruct (set_name _ _ _); [|discriminate]. injection H as <-.
      eexists. split; [reflexivity|]. split; [apply to_schar_bounds|by left].
    + injection H as <-.
      eexists. split; [reflexivity|]. split; [apply to_schar_bounds|by left].
Qed.

Lemma parse_loop_appends (fuel : nat) (st st' : ParseState) :
  parse_loop is_opt fuel st = at_NUL st' ->
  exists added, ps_elems st' = ps_elems st ++ added /\
                Forall (elem_ok is_opt) added.
Proof.
  revert st. induction fuel as [|fuel IH]; intros st; simpl.
  - destruct (is_char (cur (ps_s st)) NUL); [|discriminate].
    intros [= <-]. exists []. by rewrite app_nil_r.
  - destruct (is_char (cur (ps_s st)) NUL).
    { intros [= <-]. exists []. by rewrite app_nil_r. }
    destruct (parse_iter is_opt st) as [st1|] eqn:Ei; [|discriminate].
    intros H. destruct (IH _ H) as (added & -> & Hok).
    destruct (parse_iter_appends st st1 Ei) as [->|(e & -> & He)].
    + by exists added.
    + exists (e :: added). rewrite <- app_assoc. split; [done|].
      by constructor.
Qed.

End ParseInvariant.

(** X3. What parse stores. Whenever parse of src/unnamed/part_001
    returns (it does not where a named placeholder has a negative
    stored position), the elements the query had are still there in front, the
    last element is a trailing literal at position -1 with a space as
    option, and every element added in between has a position that
    fits a signed char and, as option, a space, q or Q. *)
Theorem parse_appends_well_formed
    (q3 q3' : Query V3.SQLTypeAdapter) :
  V3.parse q3 = Some q3' ->
  exists added trailing,
    parse_elems_ q3' =
      parse_elems_ q3 ++ added ++ [mkElem trailing " " (-1)] /\
    Forall (fun e => -128 <= num e <= 127 /\
                     (opt e = " " \/ opt e = "q" \/ opt e = "Q")%char) added.
Proof.
  unfold V3.parse, parse_with.
  destruct (parse_loop _ _ _) as [st| |] eqn:E; [|discriminate..].
  intros [= <-]. simpl.
  destruct (parse_loop_appends _ _ _ _ E) as (added & -> & Hok). simpl.
  exists added, (ps_str st). split; [by rewrite app_assoc|].
  eapply Forall_impl; [exact Hok|].
  intros e [Hn [Ho|Ho]]; (split; [exact Hn|]); [by left|right].
  unfold V3.is_option_char, is_char in Ho. apply orb_prop in Ho.
  destruct Ho as [Ho|Ho]; apply Ascii.eqb_eq in Ho; auto.
Qed.

Lemma parse_appends_well_formed_witness :
  exists added trailing,
    [mkElem "a " "q" 0; mkElem " b" " " (-1)] =
      [] ++ added ++ [mkElem trailing " " (-1)] /\
    Forall (fun e => -128 <= num e <= 127 /\
                     (opt e = " " \/ opt e = "q" \/ opt e = "Q")%char) added.
Proof.
  apply (parse_appends_well_formed (new_Query false true "a %0q b")
           (mkQuery "a %0q b" [mkElem "a " "q" 0; mkElem " b" " " (-1)]
                    [] ∅ (mkParms [] false) true true)).
  vm_compute. reflexivity.
Defined.

(** ** parse does not look at what is already parsed *)

Section ParsePrefix.

Variable is_opt : ascii -> bool.

Lemma set_name_again (names names' N : list string) (n : Z)
    (name : string) :
  set_name names n name = Some names' ->
  exists N', set_name N n name = Some N'.
Proof.
  unfold set_name. destruct (0 <=? n); [eauto | discriminate].
Qed.

Lemma parse_iter_prefix (st st' : ParseState) L N M :
  parse_iter is_opt st = Some st' ->
  exists N' M',
    parse_iter is_opt (mkPS (ps_s st) (ps_str st) (L ++ ps_elems st) N M) =
    Some (mkPS (ps_s st') (ps_str st') (L ++ ps_elems st') N' M').
Proof.
  unfold parse_iter. cbn [ps_s ps_str ps_elems ps_names ps_nums].
  destruct (is_char (cur (ps_s st)) "%"); [|intros [= <-]; by eexists _, _].
  destruct (is_char (cur (adv (ps_s st))) "%");
    [intros [= <-]; by eexists _, _|].
  destruct (isdigit (cur (adv (ps_s st)))); [|intros [= <-]; by eexists _, _].
  destruct (scan_digits (adv (ps_s st))) as [digits s2].
  destruct (is_opt (cur s2)); cbv zeta.
  - destruct (is_char (cur (adv s2)) ":").
    + destruct (scan_name EmptyString (adv (adv s2))) as [name s4].
      destruct (set_name (ps_names st) _ _) as [names'|] eqn:En;
        [|discriminate].
      destruct (set_name_again _ _ N _ _ En) as [N' ->].
      intros [= <-]. cbn. rewrite <- app_assoc. by eexists _, _.
    + intros [= <-]. cbn. rewrite <- app_assoc. by eexists _, _.
  - destruct (is_char (cur s2) ":").
    + destruct (scan_name EmptyString (adv s2)) as [name s4].
      destruct (set_name (ps_names st) _ _) as [names'|] eqn:En;
        [|discriminate].
      destruct (set_name_again _ _ N _ _ En) as [N' ->].
      intros [= <-]. cbn. rewrite <- app_assoc. by eexists _, _.
    + intros [= <-]. cbn. rewrite <- app_assoc. by eexists _, _.
Qed.

Lemma parse_loop_prefix (fuel : nat) (st st' : ParseState) L N M :
  parse_loop is_opt fuel st = at_NUL st' ->
  exists N' M',
    parse_loop is_opt fuel
      (mkPS (ps_s st) (ps_str st) (L ++ ps_elems st) N M) =
    at_NUL (mkPS (ps_s st') (ps_str st') (L ++ ps_elems st') N' M').
Proof.
  revert st N M. induction fuel as [|fuel IH]; intros st N M; simpl.
  - destruct (is_char (cur (ps_s st)) NUL); [|discriminate].
    intros [= <-]. by eexists _, _.
  - destruct (is_char (cur (ps_s st)) NUL).
    { intros [= <-]. by eexists _, _. }
    destruct (parse_iter is_opt st) as [st1|] eqn:Ei; [|discriminate].
    intros H. destruct (parse_iter_prefix st st1 L N M Ei) as (N1 & M1 & ->).
    apply (IH _ N1 M1 H).
Qed.

End ParsePrefix.

(** X4. parse is not idempotent. It never looks at the elements that
    are already parsed: where parsing a template returns, parsing it a
    second time returns too and appends the same elements once more, so
    that proc would render the template twice. *)
Theorem parse_again_appends (q q1 : Query V3.SQLTypeAdapter) :
  parse_elems_ q = [] ->
  V3.parse q = Some q1 ->
  exists q2,
    V3.parse q1 = Some q2 /\
    parse_elems_ q2 = parse_elems_ q1 ++ parse_elems_ q1.
Proof.
  unfold V3.parse, parse_with. intros He.
  destruct (parse_loop _ _ _) as [st| |] eqn:E; [|discriminate..].
  intros [= <-]. cbn [sbuffer_ parse_elems_ parsed_names_ parsed_nums_].
  rewrite He in E.
  destruct (parse_loop_prefix _ _ _ _
              (ps_elems st ++ [mkElem (ps_str st) " " (-1)])
              (ps_names st) (ps_nums st) E) as (N' & M' & E2).
  cbn [ps_s ps_str ps_elems] in E2. rewrite app_nil_r in E2. rewrite E2.
  eexists. split; [reflexivity|]. cbn. by rewrite <- app_assoc.
Qed.

Lemma parse_again_appends_witness :
  exists q2,
    V3.parse (mkQuery "a %0q b" [mkElem "a " "q" 0; mkElem " b" " " (-1)]
                      [] ∅ (mkParms [] false) true true) = Some q2 /\
    parse_elems_ q2 =
      [mkElem "a " "q" 0; mkElem " b" " " (-1)] ++
      [mkElem "a " "q" 0; mkElem " b" " " (-1)].
Proof.
  apply (parse_again_appends (new_Query false true "a %0q b")
           (mkQuery "a %0q b" [mkElem "a " "q" 0; mkElem " b" " " (-1)]
                    [] ∅ (mkParms [] false) true true)).
  - reflexivity.
  - vm_compute. reflexivity.
Defined.

(** ** Named placeholders *)

(** X5. The names vector of parse. Recording a name at a position n
    that is not negative succeeds: it makes the vector just long enough
    to hold position n, puts the name there, keeps every other entry it
    had, and fills the positions it had to add before n with empty
    names. *)
Theorem set_name_lookup (names : list string) (n : Z) (name : string) :
  0 <= n ->
  exists names',
    set_name names n name = Some names' /\
    length names' = Nat.max (length names) (Z.to_nat n + 1) /\
    names' !! Z.to_nat n = Some name /\
    (forall i, i <> Z.to_nat n -> (i < length names)%nat ->
               names' !! i = names !! i) /\
    (forall i, (length names <= i < Z.to_nat n)%nat ->
               names' !! i = Some EmptyString).
Proof.
  intros Hn. unfold set_name.
  destruct (Z.leb_spec 0 n) as [_|]; [|lia].
  eexists. split; [reflexivity|].
  destruct (Z.leb_spec (Z.of_nat (length names)) n) as [Hge|Hlt].
  - assert (Hlen : length (names ++ replicate (Z.to_nat (n + 1) - length names)
                                     EmptyString) = (Z.to_nat n + 1)%nat).
    { rewrite length_app, length_replicate. lia. }
    split; [rewrite length_insert, Hlen; lia|].
    split; [apply list_lookup_insert_eq; lia|].
    split.
    + intros i Hi Hlt. rewrite list_lookup_insert_ne by done.
      by apply lookup_app_l.
    + intros i Hi. rewrite list_lookup_insert_ne by lia.
      rewrite lookup_app_r by lia. apply lookup_replicate_2. lia.
  - split; [rewrite length_insert; lia|].
    split; [apply list_lookup_insert_eq; lia|].
    split.
    + intros i Hi _. by rewrite list_lookup_insert_ne.
    + intros i Hi. lia.
Qed.

Lemma set_name_lookup_witness :
  exists names',
    set_name ["a"%string] 3 "foo" = Some names' /\
    length names' = Nat.max 1 (Z.to_nat 3 + 1) /\
    names' !! Z.to_nat 3 = Some "foo"%string.
Proof.
  destruct (set_name_lookup ["a"%string] 3 "foo")
    as (names' & H0 & H1 & H2 & _); [lia|].
  exists names'. split; [exact H0|]. split; [exact H1 | exact H2].
Defined.

Lemma scan_name_spec (acc name rest : string) :
  name_chars name = true ->
  is_name_char (cur rest) = false ->
  scan_name acc (name +:+ rest) = (acc +:+ name, rest).
Proof.
  revert acc. induction name as [|c name IH]; intros acc Hn Hr.
  - rewrite append_empty_r. change (EmptyString +:+ rest) with rest.
    destruct rest as [|r rest]; [reflexivity|].
    simpl in *. unfold is_name_char in Hr. by rewrite Hr.
  - simpl in Hn. apply andb_prop in Hn as [Hc Hn].
    rewrite append_cons. cbn [scan_name]. unfold is_name_char in Hc.
    rewrite Hc. rewrite IH by done. by rewrite push_char_append.
Qed.

Lemma digit_value (d : ascii) :
  isdigit d = true ->
  to_schar (atoi (String d EmptyString)) = code d - 48 /\
  0 <= code d - 48 <= 9.
Proof.
  intros Hd. unfold atoi. cbn [atoi_from]. rewrite Hd.
  unfold isdigit in Hd. apply andb_prop in Hd as [H1 H2].
  apply Z.leb_le in H1, H2. split; [|lia].
  rewrite to_schar_small; lia.
Qed.

(** X6. One turn of the loop of parse at a named placeholder. With
    the unread text starting with a percent sign, one digit d, a colon
    and a name (letters, digits and underscores, followed by a
    character that is none of these), the turn appends one element with
    the literal text read so far, a space as option and the position of
    d, records the name at that position and the position under that
    name, empties the literal text, and skips one colon after the name
    if there is one. *)
Theorem parse_iter_named_placeholder (is_opt : ascii -> bool)
    (st : ParseState) (d : ascii) (name tail : string) :
  is_opt ":"%char = false ->
  isdigit d = true ->
  name_chars name = true ->
  is_name_char (cur tail) = false ->
  ps_s st = String "%" (String d (String ":" (name +:+ tail))) ->
  exists names',
    set_name (ps_names st) (code d - 48) name = Some names' /\
    parse_iter is_opt st =
    Some (mkPS (if is_char (cur tail) ":" then adv tail else tail)
            EmptyString
            (ps_elems st ++ [mkElem (ps_str st) " " (code d - 48)])
            names'
            (<[name := code d - 48]> (ps_nums st))).
Proof.
  intros Ho Hd Hn Ht Hs.
  destruct (digit_plain _ Hd) as (E1 & _ & _ & _).
  destruct (digit_value _ Hd) as [Hv Hr].
  destruct (set_name (ps_names st) (code d - 48) name) as [names'|] eqn:En;
    [|apply set_name_None in En; lia].
  exists names'. split; [reflexivity|].
  unfold parse_iter, scan_digits. rewrite Hs. cbn [cur adv].
  change (is_char "%" "%") with true. cbn iota.
  rewrite E1, Hd. change (isdigit ":") with false. cbn iota.
  cbn [cur adv]. rewrite Ho. cbn iota. cbv zeta. cbn [cur adv].
  change (is_char ":" ":") with true. cbn iota.
  rewrite (scan_name_spec EmptyString name tail Hn Ht).
  change (EmptyString +:+ name) with name.
  rewrite Hv, En. reflexivity.
Qed.

Lemma parse_iter_named_placeholder_witness :
  parse_iter V3.is_option_char
    (mkPS "%0:foo: rest" "x = " [] [] ∅) =
  Some (mkPS " rest" EmptyString [mkElem "x = " " " 0]
          ["foo"%string] (<["foo"%string := 0]> ∅)).
Proof.
  destruct (parse_iter_named_placeholder V3.is_option_char
              (mkPS "%0:foo: rest" "x = " [] [] ∅) "0" "foo" ": rest")
    as (names' & Hs & Hp); [reflexivity..|].
  vm_compute in Hs. injection Hs as <-. exact Hp.
Defined.

(** ** parse reads the template as a C string *)

Lemma cur_c_str (s : string) : cur (c_str s) = cur s.
Proof.
  destruct s as [|c t]; [reflexivity|]. simpl.
  destruct (is_char c NUL) eqn:E; [|reflexivity].
  apply Ascii.eqb_eq in E. by subst c.
Qed.

Lemma adv_c_str (s : string) :
  is_char (cur s) NUL = false -> adv (c_str s) = c_str (adv s).
Proof.
  destruct s as [|c t]; [reflexivity|]. simpl. by intros ->.
Qed.

Lemma c_str_length (s : string) :
  (String.length (c_str s) <= String.length s)%nat.
Proof.
  induction s as [|c t IH]; simpl; [lia|].
  destruct (is_char c NUL); simpl; lia.
Qed.

Lemma name_char_not_NUL (c : ascii) :
  isalnum c || is_char c "_" = true -> is_char c NUL = false.
Proof.
  intros H. destruct (is_char c NUL) eqn:E; [|reflexivity].
  apply Ascii.eqb_eq in E. subst c. discriminate H.
Qed.

Lemma char_not_NUL (c d : ascii) :
  is_char c d = true -> is_char d NUL = false -> is_char c NUL = false.
Proof. intros H. apply Ascii.eqb_eq in H. by subst c. Qed.

Lemma scan_name_c_str (acc s : string) :
  scan_name acc (c_str s) =
  (fst (scan_name acc s), c_str (snd (scan_name acc s))).
Proof.
  revert acc. induction s as [|c t IH]; intros acc; [reflexivity|].
  cbn [c_str scan_name].
  destruct (isalnum c || is_char c "_") eqn:En.
  - rewrite (name_char_not_NUL _ En). cbn [scan_name]. rewrite En. apply IH.
  - destruct (is_char c NUL) eqn:Ez; cbn [scan_name fst snd c_str].
    + by rewrite Ez.
    + by rewrite En, Ez.
Qed.

Lemma scan_digits_c_str (s : string) :
  isdigit (cur s) = true ->
  scan_digits (c_str s) =
  (fst (scan_digits s), c_str (snd (scan_digits s))).
Proof.
  intros H0. unfold scan_digits.
  pose proof (isdigit_not_NUL _ H0) as Z0.
  rewrite cur_c_str, (adv_c_str _ Z0), cur_c_str.
  destruct (isdigit (cur (adv s))) eqn:H1; [|reflexivity].
  pose proof (isdigit_not_NUL _ H1) as Z1.
  rewrite (adv_c_str _ Z1), cur_c_str.
  destruct (isdigit (cur (adv (adv s)))) eqn:H2; [|reflexivity].
  pose proof (isdigit_not_NUL _ H2) as Z2.
  by rewrite (adv_c_str _ Z2).
Qed.

Section CString.

Variable is_opt : ascii -> bool.
Hypothesis is_opt_NUL : is_opt NUL = false.

Lemma is_opt_not_NUL (c : ascii) : is_opt c = true -> is_char c NUL = false.
Proof.
  intros H. destruct (is_char c NUL) eqn:E; [|reflexivity].
  apply Ascii.eqb_eq in E. subst c. congruence.
Qed.

Lemma parse_iter_c_str (st : ParseState) :
  is_char (cur (ps_s st)) NUL = false ->
  parse_iter is_opt (cut_at_NUL st) =
  option_map cut_at_NUL (parse_iter is_opt st).
Proof.
  intros Hz. unfold parse_iter, cut_at_NUL.
  cbn [ps_s ps_str ps_elems ps_names ps_nums].
  rewrite cur_c_str, (adv_c_str _ Hz), cur_c_str.
  destruct (is_char (cur (ps_s st)) "%") eqn:Ep; [|reflexivity].
  destruct (is_char (cur (adv (ps_s st))) "%") eqn:Epp.
  { rewrite adv_c_str; [reflexivity|].
    by apply (char_not_NUL _ _ Epp). }
  destruct (isdigit (cur (adv (ps_s st)))) eqn:Ed; [|reflexivity].
  rewrite (scan_digits_c_str _ Ed).
  destruct (scan_digits (adv (ps_s st))) as [digits s2]. cbn [fst snd].
  rewrite cur_c_str.
  destruct (is_opt (cur s2)) eqn:Eo; cbv zeta.
  - rewrite (adv_c_str _ (is_opt_not_NUL _ Eo)), cur_c_str.
    destruct (is_char (cur (adv s2)) ":") eqn:Ec; [|reflexivity].
    rewrite (adv_c_str (adv s2)) by (by apply (char_not_NUL _ _ Ec)).
    rewrite scan_name_c_str.
    destruct (scan_name EmptyString (adv (adv s2))) as [name s4].
    cbn [fst snd]. rewrite cur_c_str.
    destruct (set_name _ _ _); [|reflexivity].
    destruct (is_char (cur s4) ":") eqn:Ec2; [|reflexivity].
    rewrite adv_c_str; [reflexivity|]. by apply (char_not_NUL _ _ Ec2).
  - rewrite cur_c_str.
    destruct (is_char (cur s2) ":") eqn:Ec; [|reflexivity].
    rewrite (adv_c_str s2) by (by apply (char_not_NUL _ _ Ec)).
    rewrite scan_name_c_str.
    destruct (scan_name EmptyString (adv s2)) as [name s4].
    cbn [fst snd]. rewrite cur_c_str.
    destruct (set_name _ _ _); [|reflexivity].
    destruct (is_char (cur s4) ":") eqn:Ec2; [|reflexivity].
    rewrite adv_c_str; [reflexivity|]. by apply (char_not_NUL _ _ Ec2).
Qed.

Lemma parse_loop_c_str (fuel : nat) (st r : ParseState) :
  parse_loop is_opt fuel st = at_NUL r ->
  parse_loop is_opt fuel (cut_at_NUL st) = at_NUL (cut_at_NUL r).
Proof.
  revert st. induction fuel as [|fuel IH]; intros st;
    cbn [parse_loop]; unfold cut_at_NUL at 1; cbn [ps_s]; rewrite cur_c_str.
  - destruct (is_char (cur (ps_s st)) NUL); [|discriminate]. by intros [= <-].
  - destruct (is_char (cur (ps_s st)) NUL) eqn:Ez; [by intros [= <-]|].
    fold (cut_at_NUL st). rewrite (parse_iter_c_str _ Ez).
    destruct (parse_iter is_opt st) as [st1|]; [|discriminate].
    cbn [option_map]. by apply IH.
Qed.

(** Once the loop has ended otherwise than by the turns allowed, more
    turns change nothing. *)
Lemma parse_loop_more_fuel (fuel fuel' : nat) (st : ParseState) :
  parse_loop is_opt fuel st <> out_of_fuel -> (fuel <= fuel')%nat ->
  parse_loop is_opt fuel' st = parse_loop is_opt fuel st.
Proof.
  revert fuel' st. induction fuel as [|fuel IH]; intros fuel' st; cbn [parse_loop].
  - destruct (is_char (cur (ps_s st)) NUL) eqn:Ez; [|done].
    intros _ _. destruct fuel'; cbn [parse_loop]; by rewrite Ez.
  - destruct (is_char (cur (ps_s st)) NUL) eqn:Ez.
    { intros _ _. destruct fuel'; cbn [parse_loop]; by rewrite Ez. }
    intros H Hle. destruct fuel' as [|fuel']; [lia|].
    cbn [parse_loop]. rewrite Ez.
    destruct (parse_iter is_opt st) as [st1|]; [|reflexivity].
    apply IH; [exact H | lia].
Qed.

Lemma parse_with_c_str {V} (q q' : Query V) :
  parse_with is_opt q = Some q' ->
  parse_with is_opt (with_sbuffer q (c_str (sbuffer_ q))) =
  Some (with_sbuffer q' (c_str (sbuffer_ q))).
Proof.
  unfold parse_with. cbn [with_sbuffer sbuffer_ parse_elems_ parsed_names_
    parsed_nums_ template_defaults throw_exceptions copacetic_].
  destruct (parse_loop is_opt (String.length (sbuffer_ q)) _)
    as [st| |] eqn:E; [|discriminate..].
  intros [= <-].
  apply parse_loop_c_str in E. unfold cut_at_NUL at 1 in E. cbn in E.
  pose proof (parse_loop_enough is_opt (String.length (c_str (sbuffer_ q)))
                (mkPS (c_str (sbuffer_ q)) EmptyString (parse_elems_ q)
                      (parsed_names_ q) (parsed_nums_ q))
                ltac:(simpl; lia)) as Hne.
  pose proof (parse_loop_more_fuel _ _ _ Hne (c_str_length (sbuffer_ q)))
    as Hm.
  rewrite E in Hm. rewrite <- Hm. reflexivity.
Qed.

End CString.

(** X7. parse reads the template as a C string. Whatever follows the
    first NUL byte of the buffer has no effect on the elements, names
    and positions parse stores: where parse returns, parsing the text
    cut at its first NUL returns the same result. *)
Theorem parse_reads_c_string (q q' : Query V3.SQLTypeAdapter) :
  V3.parse q = Some q' ->
  V3.parse (with_sbuffer q (c_str (sbuffer_ q))) =
  Some (with_sbuffer q' (c_str (sbuffer_ q))).
Proof. apply parse_with_c_str. reflexivity. Qed.

Lemma parse_reads_c_string_witness :
  V3.parse (new_Query false true "a %0 b") =
  Some (with_sbuffer
          (mkQuery ("a %0 b" +:+ String NUL " %1 c")
             [mkElem "a " " " 0; mkElem " b" " " (-1)] [] ∅
             (mkParms [] false) true true)
          "a %0 b").
Proof.
  apply (parse_reads_c_string
           (new_Query false true ("a %0 b" +:+ String NUL " %1 c"))).
  vm_compute. reflexivity.
Defined.

(** ** What a pass of proc leaves alone *)

Section ProcFrame.

Context {V : Type}.
Variable data : V -> string.
Variable pprepare : ascii -> V -> bool -> V * prep_ret V.

Local Abbreviation pelem := (proc_elem data pprepare).
Local Abbreviation ploop := (proc_loop data pprepare).

Lemma proc_elem_query_frame p e (m : Mem V) :
  let q' := the_query (fst (pelem p e m)) in
  parsed_names_ q' = parsed_names_ (the_query m) /\
  parsed_nums_ q' = parsed_nums_ (the_query m) /\
  throw_exceptions q' = throw_exceptions (the_query m) /\
  copacetic_ q' = copacetic_ (the_query m).
Proof.
  destruct (proc_elem_cases p e m) as [H|[H|(H0 & c & param & Hc & Hv)]].
  - rewrite (proc_elem_literal _ _ p e m H). by repeat split.
  - rewrite (proc_elem_unresolved _ _ p e m H). by repeat split.
  - rewrite (proc_elem_filled _ _ _ _ _ _ _ H0 Hc Hv).
    destruct c; by repeat split.
Qed.

Lemma proc_loop_query_frame p elems (m : Mem V) :
  let q' := the_query (fst (ploop p elems m)) in
  parsed_names_ q' = parsed_names_ (the_query m) /\
  parsed_nums_ q' = parsed_nums_ (the_query m) /\
  throw_exceptions q' = throw_exceptions (the_query m) /\
  copacetic_ q' = copacetic_ (the_query m).
Proof.
  revert m. induction elems as [|e elems IH]; intros m; simpl; [done|].
  pose proof (proc_elem_query_frame p e m) as H1.
  destruct (pelem p e m) as [m' [x|]]; simpl in *; [done|].
  destruct (IH m') as (A & B & C & D). destruct H1 as (A1 & B1 & C1 & D1).
  repeat split; congruence.
Qed.

End ProcFrame.

(** X8. What proc never changes, whether it throws or not: the sizes
    of the caller's list and of the template defaults and what bound()
    answers for them, the parsed elements, the names and positions, the
    exception flag and the success flag of the query. *)
Theorem proc_keeps_shape (esc : string -> string) (p : parms_ptr)
    (m : Mem V3.SQLTypeAdapter) :
  let m' := fst (V3.proc esc p m) in
  length (values (call_parms m')) = length (values (call_parms m)) /\
  bound (call_parms m') = bound (call_parms m) /\
  length (values (template_defaults (the_query m'))) =
    length (values (template_defaults (the_query m))) /\
  bound (template_defaults (the_query m')) =
    bound (template_defaults (the_query m)) /\
  parse_elems_ (the_query m') = parse_elems_ (the_query m) /\
  parsed_names_ (the_query m') = parsed_names_ (the_query m) /\
  parsed_nums_ (the_query m') = parsed_nums_ (the_query m) /\
  throw_exceptions (the_query m') = throw_exceptions (the_query m) /\
  copacetic_ (the_query m') = copacetic_ (the_query m).
Proof.
  unfold V3.proc, proc.
  pose proof (proc_loop_shape V3.data (V3.pprepare esc) p
                (parse_elems_ (the_query m)) (clear_sbuffer m)) as [Hs He].
  pose proof (proc_loop_query_frame V3.data (V3.pprepare esc) p
                (parse_elems_ (the_query m)) (clear_sbuffer m))
    as (A & B & C & D).
  destruct (Hs to_call_parms) as [L1 B1].
  destruct (Hs to_template_defaults) as [L2 B2].
  cbv zeta. repeat split; assumption.
Qed.

(** X9. proc leaves a list that is not bound exactly as it was: no
    value of it is replaced and no processed flag in it is set, for
    the caller's list as for the template defaults. *)
Theorem proc_leaves_unbound_list (esc : string -> string) (p c : parms_ptr)
    (m : Mem V3.SQLTypeAdapter) :
  bound (deref m c) = false ->
  deref (fst (V3.proc esc p m)) c = deref m c.
Proof.
  intros Hb. unfold V3.proc, proc.
  pose proof (proc_loop_evolves V3.data V3.is_processed (V3.pprepare esc)
                (V3_pprepare_processed esc) (V3_pprepare_keep esc)
                p (parse_elems_ (the_query m)) (clear_sbuffer m))
    as [[Hs _] Hst].
  set (m' := fst (proc_loop _ _ _ _ _)) in *.
  destruct (Hs c) as [Hlen Hbd].
  unfold clear_sbuffer in *. rewrite deref_with_buf in *.
  assert (Hv : values (deref m' c) = values (deref m c)).
  { apply list_eq. intros i.
    destruct (values (deref m c) !! i) as [v|] eqn:E.
    - apply (Hst c i v); [by rewrite deref_with_buf | right; by rewrite deref_with_buf].
    - apply lookup_ge_None. apply lookup_ge_None in E. lia. }
  destruct (deref m' c), (deref m c). simpl in *. congruence.
Qed.

Lemma proc_leaves_unbound_list_witness :
  deref (fst (V3.proc sample_escape to_call_parms ex_mem))
    to_template_defaults
  = deref ex_mem to_template_defaults.
Proof.
  apply (proc_leaves_unbound_list sample_escape to_call_parms
           to_template_defaults ex_mem).
  reflexivity.
Defined.

(** ** The text of a read-only pass *)

Section ProcReadOnly.

Context {V : Type}.
Variable data : V -> string.
Variable pprepare : ascii -> V -> bool -> V * prep_ret V.
Hypothesis pprepare_keep : forall o S, fst (pprepare o S false) = S.

Local Abbreviation pelem := (proc_elem data pprepare).
Local Abbreviation ploop := (proc_loop data pprepare).
Local Abbreviation ppiece := (piece data pprepare).

Lemma piece_with_buf (m : Mem V) b p e :
  ppiece (with_buf m b) p e = ppiece m p e.
Proof.
  unfold piece.
  rewrite (choose_same_shape m _ _ _ (same_shape_with_buf m b)).
  destruct (choose m p (Z.to_nat (num e))) as [c|]; [|reflexivity].
  by rewrite deref_with_buf.
Qed.

Lemma proc_elem_read_only p e (m : Mem V) :
  bound (call_parms m) = false ->
  bound (template_defaults (the_query m)) = false ->
  ~ unresolved m p e ->
  pelem p e m = (with_buf m (buf m +:+ ppiece m p e), None).
Proof.
  intros B1 B2 Hu.
  assert (Hb : forall c, bound (deref m c) = false) by (by intros []).
  destruct (proc_elem_cases p e m) as [H|[H|(H0 & c & param & Hc & Hv)]].
  - rewrite (proc_elem_literal _ _ p e m H). unfold piece.
    destruct (Z.leb_spec 0 (num e)); [lia|]. by rewrite append_empty_r.
  - contradiction.
  - rewrite (proc_elem_filled _ _ _ _ _ _ _ H0 Hc Hv). cbv zeta.
    unfold piece. destruct (Z.leb_spec 0 (num e)); [|lia].
    rewrite Hc, Hv, Hb.
    rewrite (pprepare_keep (opt e) param).
    unfold write at 2. rewrite store_value_with_buf.
    rewrite (store_value_same m c _ _ Hv).
    unfold write. rewrite with_buf_with_buf, buf_with_buf.
    by rewrite append_assoc_str.
Qed.

Lemma proc_loop_read_only p elems (m : Mem V) :
  bound (call_parms m) = false ->
  bound (template_defaults (the_query m)) = false ->
  Forall (fun e => ~ unresolved m p e) elems ->
  ploop p elems m =
  (with_buf m (buf m +:+ concat_strings (map (ppiece m p) elems)), None).
Proof.
  revert m. induction elems as [|e elems IH]; intros m B1 B2 Hall.
  - simpl. by rewrite append_empty_r, with_buf_buf.
  - apply Forall_cons in Hall as [He Hall]. cbn [proc_loop].
    rewrite (proc_elem_read_only p e m B1 B2 He).
    rewrite IH; [| exact B1 | exact B2 |].
    + rewrite with_buf_with_buf, buf_with_buf. cbn [map concat_strings fold_right].
      rewrite append_assoc_str.
      rewrite (map_ext _ _ (fun e' => piece_with_buf m _ p e')).
      reflexivity.
    + eapply Forall_impl; [exact Hall|]. intros e' Hn Hu. apply Hn.
      exact (proj1 (unresolved_same_shape m _ p e'
                      (same_shape_with_buf m (buf m +:+ ppiece m p e))) Hu).
Qed.

End ProcReadOnly.

(** X10. The text of a pass that writes nothing back. When neither
    list is bound and every placeholder can be filled, proc does not
    throw, changes only the buffer, and the buffer holds, element by
    element in order, the literal text followed by the text pprepare
    gives for the value the placeholder selects (the caller's list
    first, the template defaults when the caller's list is too
    short). *)
Theorem proc_read_only_text (esc : string -> string) (p : parms_ptr)
    (m : Mem V3.SQLTypeAdapter) :
  bound (call_parms m) = false ->
  bound (template_defaults (the_query m)) = false ->
  Forall (fun e => ~ unresolved m p e) (parse_elems_ (the_query m)) ->
  V3.proc esc p m =
  (with_buf m
     (concat_strings
        (map (piece V3.data (V3.pprepare esc) m p)
             (parse_elems_ (the_query m)))),
   None).
Proof.
  intros B1 B2 Hall. unfold V3.proc, proc.
  rewrite (proc_loop_read_only V3.data (V3.pprepare esc)
             (V3_pprepare_keep esc)); try assumption.
  unfold clear_sbuffer. rewrite with_buf_with_buf, buf_with_buf.
  rewrite (map_ext _ _ (fun e => piece_with_buf V3.data (V3.pprepare esc)
                                   m EmptyString p e)).
  reflexivity.
Qed.

Lemma proc_read_only_text_witness :
  V3.proc sample_escape to_call_parms ex_ro_mem =
  (with_buf ex_ro_mem "a 'it\'s' b d1 c", None).
Proof.
  rewrite (proc_read_only_text sample_escape to_call_parms ex_ro_mem).
  - vm_compute. reflexivity.
  - reflexivity.
  - reflexivity.
  - assert (E : parse_elems_ (the_query ex_ro_mem) =
                [mkElem "a " "q" 0; mkElem " b " " " 1; mkElem " c" " " (-1)])
      by (vm_compute; reflexivity).
    rewrite E.
    repeat constructor; intros (H0 & H1 & H2); vm_compute in H0, H1, H2; lia.
Defined.

(** X11. A value of a bound list is formatted once. When the
    template uses the same position twice and the list it is filled
    from is bound, the first placeholder stores the formatted value
    back, and the later placeholder writes that stored text whatever
    its own option is, and changes nothing but the buffer: the first
    placeholder's option decides the rendering of both. *)
Theorem bound_value_formatted_once (esc : string -> string) (p c : parms_ptr)
    (m m2 : Mem V3.SQLTypeAdapter) (e1 e2 : SQLParseElement)
    (mid : list SQLParseElement) (param : V3.SQLTypeAdapter) :
  0 <= num e1 ->
  num e2 = num e1 ->
  choose m p (Z.to_nat (num e1)) = Some c ->
  bound (deref m c) = true ->
  values (deref m c) !! Z.to_nat (num e1) = Some param ->
  proc_loop V3.data (V3.pprepare esc) p mid
    (fst (proc_elem V3.data (V3.pprepare esc) p e1 m)) = (m2, None) ->
  proc_elem V3.data (V3.pprepare esc) p e2 m2 =
  (with_buf m2
     ((buf m2 +:+ before e2) +:+
      V3.data (fst (V3.pprepare esc (opt e1) param true))),
   None).
Proof.
  intros H0 Hn Hc Hb Hv Hmid.
  set (r := V3.pprepare esc (opt e1) param true).
  pose proof (proc_elem_evolves V3.data V3.is_processed (V3.pprepare esc)
                (V3_pprepare_processed esc) (V3_pprepare_keep esc) p e1 m)
    as Hev1.
  pose proof (proc_loop_evolves V3.data V3.is_processed (V3.pprepare esc)
                (V3_pprepare_processed esc) (V3_pprepare_keep esc) p mid
                (fst (proc_elem V3.data (V3.pprepare esc) p e1 m)))
    as Hev2.
  rewrite Hmid in Hev2. cbn [fst] in Hev2.
  pose proof (evolves_trans _ _ _ _ Hev1 Hev2) as [Hs _].
  destruct Hev2 as [_ Hst].
  destruct (V3_pprepare_replace esc (opt e1) param) as [_ Hp]. fold r in Hp.
  assert (Hv2 : values (deref m2 c) !! Z.to_nat (num e1) = Some (fst r)).
  { apply Hst; [|by left].
    rewrite (proc_elem_filled _ _ _ _ _ _ _ H0 Hc Hv). rewrite Hb. cbn [fst].
    fold r. unfold write. rewrite deref_with_buf, deref_store_value.
    rewrite decide_True by done. rewrite deref_with_buf. simpl.
    apply list_lookup_insert_eq. by eapply lookup_lt_Some. }
  assert (Hc2 : choose m2 p (Z.to_nat (num e2)) = Some c).
  { rewrite Hn. by rewrite (choose_same_shape m m2 _ _ Hs). }
  rewrite <- Hn in Hv2.
  rewrite (proc_elem_filled _ _ p e2 m2 c (fst r)); [|lia|exact Hc2|exact Hv2].
  rewrite (V3_pprepare_processed esc _ _ _ Hp). cbv zeta. cbn [fst].
  unfold write at 2. rewrite store_value_with_buf.
  rewrite (store_value_same m2 c _ _ Hv2).
  unfold write, rendered. by rewrite with_buf_with_buf, buf_with_buf.
Qed.

Lemma bound_value_formatted_once_witness :
  proc_elem V3.data (V3.pprepare sample_escape) to_call_parms
    (mkElem " and " " " 0)
    (fst (proc_elem V3.data (V3.pprepare sample_escape) to_call_parms
            (mkElem EmptyString "q" 0) (with_buf ex_twice_mem EmptyString))) =
  (with_buf
     (fst (proc_elem V3.data (V3.pprepare sample_escape) to_call_parms
             (mkElem EmptyString "q" 0) (with_buf ex_twice_mem EmptyString)))
     "'it\'s' and 'it\'s'", None).
Proof.
  rewrite (bound_value_formatted_once sample_escape to_call_parms
             to_call_parms (with_buf ex_twice_mem EmptyString) _
             (mkElem EmptyString "q" 0)
             (mkElem " and " " " 0) [] (V3.of_string "it's"));
    [| simpl; lia | reflexivity | reflexivity | reflexivity | reflexivity
     | reflexivity].
  vm_compute. reflexivity.
Defined.

(** ** The execution calls of src/unnamed/part_001 *)

Section Quiet.

Variable d : V3.DBDriver.
Variable i : V3.DBDriverInfo.
Variable str : string.
Variable q : Query V3.SQLTypeAdapter.
Hypothesis quiet : throw_exceptions q = false.

Lemma auto_reset_keeps_exceptions (ok : bool) :
  throw_exceptions
    (if (length (parse_elems_ (with_copacetic q ok)) =? 0)%nat
     then reset (with_copacetic q ok) else with_copacetic q ok)
  = false.
Proof.
  by destruct (length (parse_elems_ (with_copacetic q ok)) =? 0)%nat.
Qed.

Lemma V3_exec_quiet : exists r, snd (V3.exec d str q) = returns r.
Proof.
  unfold V3.exec. cbv zeta. rewrite auto_reset_keeps_exceptions.
  rewrite andb_false_r. eauto.
Qed.

Lemma V3_execute_str_quiet :
  exists r, snd (V3.execute_str d i str q) = returns r.
Proof.
  unfold V3.execute_str. cbv zeta. rewrite auto_reset_keeps_exceptions.
  destruct (copacetic_ _); eauto.
Qed.

Lemma V3_store_quiet : exists r, snd (V3.store d str q) = returns r.
Proof.
  unfold V3.store. cbv zeta.
  destruct (if copacetic_ _ then V3.store_result d else None); [eauto|].
  cbn [with_copacetic throw_exceptions copacetic_].
  rewrite auto_reset_keeps_exceptions. rewrite orb_true_r. eauto.
Qed.

Lemma V3_use_str_quiet : exists r, snd (V3.use_str d i str q) = returns r.
Proof.
  unfold V3.use_str. cbv zeta.
  destruct (if copacetic_ _ then V3.use_result i else None); [eauto|].
  cbn [with_copacetic throw_exceptions copacetic_].
  rewrite auto_reset_keeps_exceptions. rewrite orb_true_r. eauto.
Qed.

Lemma V3_store_next_quiet : exists r, V3.store_next d q = returns r.
Proof.
  unfold V3.store_next. rewrite quiet.
  destruct (V3.next_result d), (V3.store_result d);
    rewrite ?andb_false_r; eauto.
Qed.

End Quiet.

(** X12. With exceptions disabled, exec, execute, store, use (the
    overloads that take the statement text) and store_next of
    src/unnamed/part_001 always return a value, whatever the driver
    answers. *)
Theorem V3_no_throw_when_disabled (d : V3.DBDriver) (i : V3.DBDriverInfo)
    (str : string) (q : Query V3.SQLTypeAdapter) :
  throw_exceptions q = false ->
  (exists r, snd (V3.exec d str q) = returns r) /\
  (exists r, snd (V3.execute_str d i str q) = returns r) /\
  (exists r, snd (V3.store d str q) = returns r) /\
  (exists r, snd (V3.use_str d i str q) = returns r) /\
  (exists r, V3.store_next d q = returns r).
Proof.
  intros Hte. split; [|split; [|split; [|split]]].
  - by apply V3_exec_quiet.
  - by apply V3_execute_str_quiet.
  - by apply V3_store_quiet.
  - by apply V3_use_str_quiet.
  - by apply V3_store_next_quiet.
Qed.

Lemma V3_no_throw_when_disabled_witness :
  exists r,
    snd (V3.store (V3.mkDriver (fun _ => false) None 1064 V3.nr_error)
           "SELEC 1" (new_Query false false EmptyString)) = returns r.
Proof.
  destruct (V3_no_throw_when_disabled
              (V3.mkDriver (fun _ => false) None 1064 V3.nr_error)
              (V3.mkInfo 0 0 EmptyString None) "SELEC 1"
              (new_Query false false EmptyString)) as (_ & _ & H & _);
    [reflexivity | exact H].
Defined.

(** X13. The auto-reset of src/unnamed/part_001. exec, execute,
    store and use on a query with no parsed element leave the buffer,
    the elements and the template defaults empty, whether the statement
    ran or failed and whether the call throws or not; on a query with
    parsed elements they leave the buffer, the elements and the
    template defaults as they were. *)
Theorem V3_auto_reset (d : V3.DBDriver) (i : V3.DBDriverInfo)
    (str : string) (q : Query V3.SQLTypeAdapter) :
  let kept (q' : Query V3.SQLTypeAdapter) :=
    if (length (parse_elems_ q) =? 0)%nat
    then sbuffer_ q' = EmptyString /\ parse_elems_ q' = [] /\
         values (template_defaults q') = []
    else sbuffer_ q' = sbuffer_ q /\ parse_elems_ q' = parse_elems_ q /\
         template_defaults q' = template_defaults q in
  kept (fst (V3.exec d str q)) /\
  kept (fst (V3.execute_str d i str q)) /\
  kept (fst (V3.store d str q)) /\
  kept (fst (V3.use_str d i str q)).
Proof.
  cbv zeta. unfold V3.exec, V3.execute_str, V3.store, V3.use_str. cbv zeta.
  cbn [with_copacetic parse_elems_].
  destruct (length (parse_elems_ q) =? 0)%nat eqn:E.
  - repeat split;
      repeat match goal with
             | |- context [if ?c then _ else _] => destruct c
             | |- context [match ?c with Some _ => _ | None => _ end] =>
                 destruct c
             end; reflexivity.
  - repeat split;
      repeat match goal with
             | |- context [if ?c then _ else _] => destruct c
             | |- context [match ?c with Some _ => _ | None => _ end] =>
                 destruct c
             end; reflexivity.
Qed.

(** ** The overloads that take one value or a list *)

Section OneParameterFacts.

Variable esc : string -> string.
Variable b : bool.
Context {R : Type}.
Variable raw :
  string -> Query V3.SQLTypeAdapter -> Query V3.SQLTypeAdapter * outcome R.

Lemma call_with_adapter_unfold (fuel : nat) (processing : bool)
    (s : V3.SQLTypeAdapter) (q : Query V3.SQLTypeAdapter) :
  (3 <= fuel)%nat ->
  V3.call_with_adapter esc b raw fuel processing s q =
  Some (if (length (parse_elems_ q) =? 2)%nat && negb processing then
          match V3.str esc to_call_parms (mkMem q (V3.lone_parameter b s)) with
          | (m', inl text) => raw text (the_query m')
          | (m', inr e) => (the_query m', throws e)
          end
        else raw (V3.data s) q).
Proof.
  intros Hf. destruct fuel as [|[|[|fuel]]]; try lia.
  cbn [V3.call_with_adapter V3.call_with_parms].
  destruct ((length (parse_elems_ q) =? 2)%nat && negb processing);
    [|reflexivity].
  destruct (V3.str esc to_call_parms (mkMem q (V3.lone_parameter b s)))
    as [m' [text|e]]; [|reflexivity].
  rewrite andb_false_r.
  cbn [V3.of_string V3.data].
  by destruct (raw text (the_query m')).
Qed.

Lemma str_one_placeholder (s : V3.SQLTypeAdapter)
    (q : Query V3.SQLTypeAdapter) (e0 e1 : SQLParseElement) :
  parse_elems_ q = [e0; e1] ->
  num e0 = 0 ->
  num e1 < 0 ->
  let text := (before e0 +:+
               rendered V3.data (V3.pprepare esc (opt e0) s b)) +:+
              before e1 in
  exists l,
    V3.str esc to_call_parms (mkMem q (V3.lone_parameter b s)) =
    (mkMem (with_sbuffer q text) l, inl text).
Proof.
  intros Hq H0 H1. cbv zeta.
  unfold V3.str, str. cbn [the_query]. rewrite Hq.
  rewrite bool_decide_false by done.
  unfold proc. cbn [the_query]. rewrite Hq.
  cbn [proc_loop].
  rewrite (proc_elem_filled V3.data (V3.pprepare esc) to_call_parms e0
             (clear_sbuffer (mkMem q (V3.lone_parameter b s)))
             to_call_parms s);
    [| lia | by rewrite H0 | by rewrite H0].
  cbv zeta.
  rewrite (proc_elem_literal V3.data (V3.pprepare esc) to_call_parms e1 _ H1).
  rewrite H0. eexists. reflexivity.
Qed.

End OneParameterFacts.

(** X14. The overloads of execute, store and use that take one
    value, on a template of two elements whose first is a placeholder
    at position 0 and whose second is a literal. Outside a nested call
    they return, and the result is that of the overload that takes the
    statement text, run once on the rendered template: the first
    literal, the value as pprepare formats it under the placeholder's
    option, the second literal. The buffer of the query holds that text
    when the statement is sent. *)
Theorem one_value_fills_one_placeholder (esc : string -> string) (b : bool)
    (d : V3.DBDriver) (i : V3.DBDriverInfo) (fuel : nat)
    (s : V3.SQLTypeAdapter) (q : Query V3.SQLTypeAdapter)
    (e0 e1 : SQLParseElement) :
  parse_elems_ q = [e0; e1] ->
  num e0 = 0 ->
  num e1 < 0 ->
  (3 <= fuel)%nat ->
  let text := (before e0 +:+
               rendered V3.data (V3.pprepare esc (opt e0) s b)) +:+
              before e1 in
  V3.execute_adapter esc b d i fuel false s q =
    Some (V3.execute_str d i text (with_sbuffer q text)) /\
  V3.store_adapter esc b d fuel false s q =
    Some (V3.store d text (with_sbuffer q text)) /\
  V3.use_adapter esc b d i fuel false s q =
    Some (V3.use_str d i text (with_sbuffer q text)).
Proof.
  intros Hq H0 H1 Hf. cbv zeta.
  unfold V3.execute_adapter, V3.store_adapter, V3.use_adapter.
  rewrite !call_with_adapter_unfold by exact Hf.
  rewrite Hq. cbn [length Nat.eqb negb andb].
  destruct (str_one_placeholder esc b s q e0 e1 Hq H0 H1) as [l ->].
  cbn [the_query]. by repeat split.
Qed.

Lemma one_value_fills_one_placeholder_witness :
  V3.store_adapter sample_escape false ok_driver 3 false
    (V3.of_string "it's") (template false true "name = %0q") =
  Some (V3.store ok_driver "name = 'it\'s'"
          (with_sbuffer (template false true "name = %0q")
             "name = 'it\'s'")).
Proof.
  destruct (one_value_fills_one_placeholder sample_escape false ok_driver
              (V3.mkInfo 0 0 EmptyString None) 3
              (V3.of_string "it's") (template false true "name = %0q")
              (mkElem "name = " "q" 0) (mkElem EmptyString " " (-1)))
    as (_ & H & _).
  - vm_compute. reflexivity.
  - reflexivity.
  - reflexivity.
  - lia.
  - exact H.
Defined.

(** X15. Disabling exceptions does not silence BadParamCount. With
    exceptions disabled, execute with one value can still throw, and
    then the exception is BadParamCount, the call is not a nested one,
    the template has two elements, and one of them is a placeholder
    that neither the one-value list nor the template defaults can
    fill. *)
Theorem disabled_exceptions_still_throw_BadParamCount
    (esc : string -> string) (b : bool)
    (d : V3.DBDriver) (i : V3.DBDriverInfo) (fuel : nat) (processing : bool)
    (s : V3.SQLTypeAdapter) (q q' : Query V3.SQLTypeAdapter) (x : Exn) :
  throw_exceptions q = false ->
  (3 <= fuel)%nat ->
  V3.execute_adapter esc b d i fuel processing s q = Some (q', throws x) ->
  x = BadParamCount /\
  processing = false /\
  length (parse_elems_ q) = 2%nat /\
  Exists (unresolved (mkMem q (V3.lone_parameter b s)) to_call_parms)
         (parse_elems_ q).
Proof.
  intros Hte Hf H. unfold V3.execute_adapter in H.
  rewrite call_with_adapter_unfold in H by exact Hf.
  injection H as H.
  assert (Hraw : forall text (q0 : Query V3.SQLTypeAdapter),
             throw_exceptions q0 = false ->
             V3.execute_str d i text q0 <> (q', throws x)).
  { intros text q0 H0 Heq.
    destruct (V3_execute_str_quiet d i text q0 H0) as [r Hr].
    rewrite Heq in Hr. discriminate. }
  destruct ((length (parse_elems_ q) =? 2)%nat && negb processing) eqn:E.
  - apply andb_true_iff in E as [E1 E2].
    apply Nat.eqb_eq in E1. apply negb_true_iff in E2.
    pose proof (V3_proc_throws_iff esc to_call_parms
                  (mkMem q (V3.lone_parameter b s))) as Hiff.
    pose proof (proc_loop_query_frame V3.data (V3.pprepare esc)
                  to_call_parms (parse_elems_ q)
                  (clear_sbuffer (mkMem q (V3.lone_parameter b s))))
      as (_ & _ & Hsh & _).
    unfold V3.str, str in H. cbn [the_query] in H, Hiff.
    rewrite bool_decide_false in H
      by (intros Hnil; rewrite Hnil in E1; discriminate).
    fold (V3.proc esc to_call_parms (mkMem q (V3.lone_parameter b s))) in H.
    destruct (V3.proc esc to_call_parms (mkMem q (V3.lone_parameter b s)))
      as [m' [e|]] eqn:Ep.
    + injection H as _ ->.
      cbn [snd] in Hiff.
      assert (x = BadParamCount) as ->.
      { unfold V3.proc, proc in Ep.
        destruct (proc_loop_thrown _ _ _ _ _ _ _ Ep)
          as (? & ? & ? & ? & _ & _ & _ & _ & Hx). exact Hx. }
      repeat split; [exact E2 | exact E1 | by apply Hiff].
    + exfalso. eapply Hraw; [|exact H].
      unfold V3.proc, proc in Ep. cbn [the_query] in Ep.
      rewrite Ep in Hsh. cbn [fst] in Hsh. rewrite Hsh. exact Hte.
  - exfalso. by eapply Hraw; [|exact H].
Qed.

Lemma disabled_exceptions_still_throw_BadParamCount_witness :
  BadParamCount = BadParamCount /\
  false = false /\
  length (parse_elems_ ex_position_one) = 2%nat /\
  Exists (unresolved
            (mkMem ex_position_one
               (V3.lone_parameter false (V3.of_string "5")))
            to_call_parms)
         (parse_elems_ ex_position_one).
Proof.
  apply (disabled_exceptions_still_throw_BadParamCount sample_escape false
           ok_driver (V3.mkInfo 0 0 EmptyString None) 3 false
           (V3.of_string "5") ex_position_one
           (with_sbuffer ex_position_one "id =  ERROR") BadParamCount).
  - reflexivity.
  - lia.
  - vm_compute. reflexivity.
Defined.

(** ** The execution calls of src/lib/query.cpp *)

(** X16. With exceptions disabled, exec, execute, store, use (the
    overloads that take the statement text) and store_next of
    src/lib/query.cpp always return a value, whatever the lock and the
    C API answer. *)
Theorem V2_no_throw_when_disabled (c : V2.Connection)
    (use_result : option MYSQL_RES) (str : string)
    (q : Query V2.SQLString) :
  throw_exceptions q = false ->
  (exists r, snd (V2.exec c str q) = returns r) /\
  (exists r, snd (V2.execute_str c str q) = returns r) /\
  (exists r, snd (V2.store c str q) = returns r) /\
  (exists r, snd (V2.use_str c use_result str q) = returns r) /\
  (exists r, V2.store_next c q = returns r).
Proof.
  intros Hte.
  unfold V2.exec, V2.execute_str, V2.store, V2.use_str, V2.store_next.
  cbv zeta. cbn [with_copacetic throw_exceptions copacetic_].
  rewrite Hte. rewrite !andb_false_r.
  split; [|split; [|split; [|split]]].
  - eauto.
  - destruct (V2.lock c), (V2.mysql_real_query c str =? 0); eauto.
  - destruct (V2.lock c), (V2.mysql_real_query c str =? 0),
      (V2.mysql_store_result c); eauto.
  - destruct (V2.lock c), (V2.mysql_real_query c str =? 0),
      use_result; eauto.
  - destruct (V2.lock c), (V2.mysql_next_result c =? 0),
      (V2.mysql_store_result c); eauto.
Qed.

Lemma V2_no_throw_when_disabled_witness :
  exists r,
    snd (V2.store locked_conn "SELECT 1" (new_Query false false EmptyString))
    = returns r.
Proof.
  destruct (V2_no_throw_when_disabled locked_conn None "SELECT 1"
              (new_Query false false EmptyString)) as (_ & _ & H & _);
    [reflexivity | exact H].
Defined.

(** X17. The success flag of src/lib/query.cpp. exec, execute, store
    and use change nothing of the query but the success flag (there is
    no auto-reset in this revision), and the flag they leave is true
    exactly when the call returned true (exec), a result made from the
    connection (execute), or a result with a handle (store, use): a
    statement that ran and gave no result handle leaves the flag
    false. *)
Theorem V2_success_flag (c : V2.Connection)
    (use_result : option MYSQL_RES) (str : string)
    (q : Query V2.SQLString) :
  fst (V2.exec c str q) =
    with_copacetic q
      (match snd (V2.exec c str q) with
       | returns true => true
       | _ => false
       end) /\
  fst (V2.execute_str c str q) =
    with_copacetic q
      (match snd (V2.execute_str c str q) with
       | returns V2.ResNSel_of_conn => true
       | _ => false
       end) /\
  fst (V2.store c str q) =
    with_copacetic q
      (match snd (V2.store c str q) with
       | returns (Result_of _ _) => true
       | _ => false
       end) /\
  fst (V2.use_str c use_result str q) =
    with_copacetic q
      (match snd (V2.use_str c use_result str q) with
       | returns (V2.ResUse_of _ _) => true
       | _ => false
       end).
Proof.
  unfold V2.exec, V2.execute_str, V2.store, V2.use_str.
  cbv zeta. cbn [with_copacetic throw_exceptions copacetic_].
  split; [|split; [|split]].
  - destruct (V2.mysql_real_query c str =? 0), (throw_exceptions q);
      reflexivity.
  - destruct (V2.lock c), (V2.mysql_real_query c str =? 0),
      (throw_exceptions q); reflexivity.
  - destruct (V2.lock c), (V2.mysql_real_query c str =? 0),
      (V2.mysql_store_result c), (throw_exceptions q),
      (V2.errnum c =? 0); reflexivity.
  - destruct (V2.lock c), (V2.mysql_real_query c str =? 0),
      use_result, (throw_exceptions q), (V2.errnum c =? 0); reflexivity.
Qed.

(** X18. LockFailed in src/lib/query.cpp. execute, store, use and
    store_next throw LockFailed exactly when the connection's lock is
    already held and exceptions are enabled; exec never asks for the
    lock and never throws LockFailed. *)
Theorem V2_lock_failed (c : V2.Connection)
    (use_result : option MYSQL_RES) (str : string)
    (q : Query V2.SQLString) :
  (snd (V2.execute_str c str q) = throws LockFailed <->
   V2.lock c = true /\ throw_exceptions q = true) /\
  (snd (V2.store c str q) = throws LockFailed <->
   V2.lock c = true /\ throw_exceptions q = true) /\
  (snd (V2.use_str c use_result str q) = throws LockFailed <->
   V2.lock c = true /\ throw_exceptions q = true) /\
  (V2.store_next c q = throws LockFailed <->
   V2.lock c = true /\ throw_exceptions q = true) /\
  snd (V2.exec c str q) <> throws LockFailed.
Proof.
  unfold V2.exec, V2.execute_str, V2.store, V2.use_str, V2.store_next.
  cbv zeta. cbn [with_copacetic throw_exceptions copacetic_].
  split; [|split; [|split; [|split]]].
  - destruct (V2.lock c), (V2.mysql_real_query c str =? 0),
      (throw_exceptions q); cbn; split; (intros [? ?] || intros ?);
      done.
  - destruct (V2.lock c), (V2.mysql_real_query c str =? 0),
      (V2.mysql_store_result c), (throw_exceptions q),
      (V2.errnum c =? 0); cbn; split; (intros [? ?] || intros ?); done.
  - destruct (V2.lock c), (V2.mysql_real_query c str =? 0),
      use_result, (throw_exceptions q), (V2.errnum c =? 0); cbn; split;
      (intros [? ?] || intros ?); done.
  - destruct (V2.lock c), (V2.mysql_next_result c =? 0),
      (V2.mysql_store_result c), (throw_exceptions q),
      (V2.errnum c =? 0), (0 <? V2.mysql_next_result c); cbn; split;
      (intros [? ?] || intros ?); done.
  - destruct (V2.mysql_real_query c str =? 0), (throw_exceptions q);
      cbn; done.
Qed.

(** ** The numbers of src/lib/sql_string.cpp *)

















(** ** DBDriver::set_option *)

Lemma shift_out_power (fuel : nat) (k : Z) :
  0 <= k < Z.of_nat fuel ->
  shift_out_zero_bits fuel (2 ^ k) = Some 1.
Proof.
  revert k. induction fuel as [|fuel IH]; intros k Hk; [lia|].
  cbn [shift_out_zero_bits].
  destruct (Z.eq_dec k 0) as [->|Hk0]; [reflexivity|].
  assert (2 ^ k = 2 * 2 ^ (k - 1)) as E.
  { rewrite <- Z.pow_succ_r by lia. f_equal. lia. }
  pose proof (Z.pow_pos_nonneg 2 (k - 1) ltac:(lia) ltac:(lia)) as Hp.
  destruct (Z.eqb_spec (2 ^ k) 0) as [H0|_]; [lia|].
  assert (Z.land (2 ^ k) 1 = 0) as ->.
  { change 1 with (Z.ones 1). rewrite Z.land_ones by lia.
    rewrite E. change (2 ^ 1) with 2.
    rewrite Z.mul_comm. apply Z.mod_mul. lia. }
  cbn [negb andb Z.eqb].
  rewrite Z.shiftr_div_pow2 by lia. change (2 ^ 1) with 2.
  rewrite E, Z.mul_comm, Z.div_mul by lia.
  apply IH. lia.
Qed.

Lemma shift_out_one (fuel : nat) (n : Z) :
  shift_out_zero_bits fuel n = Some 1 -> exists k, 0 <= k /\ n = 2 ^ k.
Proof.
  revert n. induction fuel as [|fuel IH]; intros n; [discriminate|].
  cbn [shift_out_zero_bits].
  destruct (negb (n =? 0) && (Z.land n 1 =? 0)) eqn:E.
  - intros H. apply IH in H as (k & Hk & Hn).
    apply andb_true_iff in E as [_ E]. apply Z.eqb_eq in E.
    change 1 with (Z.ones 1) in E. rewrite Z.land_ones in E by lia.
    change (2 ^ 1) with 2 in E.
    rewrite Z.shiftr_div_pow2 in Hn by lia. change (2 ^ 1) with 2 in Hn.
    exists (k + 1). split; [lia|].
    rewrite Z.pow_add_r by lia. change (2 ^ 1) with 2.
    pose proof (Z.div_mod n 2 ltac:(lia)). lia.
  - intros [= ->]. exists 0. split; [lia | reflexivity].
Qed.

Lemma shift_out_total (fuel : nat) (n : Z) :
  - 2 ^ Z.of_nat fuel < n < 2 ^ Z.of_nat fuel ->
  exists r, shift_out_zero_bits (S fuel) n = Some r.
Proof.
  revert n. induction fuel as [|fuel IH]; intros n Hn.
  - change (2 ^ Z.of_nat 0) with 1 in Hn.
    assert (n = 0) as -> by lia. by exists 0.
  - change (shift_out_zero_bits (S (S fuel)) n) with
      (if negb (n =? 0) && (Z.land n 1 =? 0)
       then shift_out_zero_bits (S fuel) (Z.shiftr n 1)
       else Some n).
    destruct (negb (n =? 0) && (Z.land n 1 =? 0)) eqn:E; [|eauto].
    apply IH. rewrite Z.shiftr_div_pow2 by lia. change (2 ^ 1) with 2.
    rewrite Nat2Z.inj_succ, Z.pow_succ_r in Hn by lia.
    apply andb_true_iff in E as [_ E]. apply Z.eqb_eq in E.
    change 1 with (Z.ones 1) in E. rewrite Z.land_ones in E by lia.
    change (2 ^ 1) with 2 in E.
    pose proof (Z.div_mod n 2 ltac:(lia)). lia.
Qed.

(** X21. DBDriver::set_option(int, bool) returns for every int, and
    it accepts the option exactly when the value has a single bit set
    and lies between the least and the greatest client flag; when it
    rejects the option the client flags stay as they were. *)
Theorem set_option_accepts_single_flags (lo hi o : Z) (arg : bool)
    (flag : Z) :
  - 2 ^ 31 <= o < 2 ^ 31 ->
  exists flag' ok,
    set_option lo hi o arg flag = Some (flag', ok) /\
    (ok = true <-> (exists k, 0 <= k /\ o = 2 ^ k) /\ lo <= o <= hi) /\
    (ok = false -> flag' = flag).
Proof.
  intros Ho. unfold set_option.
  destruct (shift_out_total 32 o) as [n Hn]; [simpl; lia|].
  rewrite Hn.
  destruct ((n =? 1) && (lo <=? o) && (o <=? hi)) eqn:E.
  - eexists _, true. split; [reflexivity|]. split; [|discriminate].
    split; [intros _|reflexivity].
    apply andb_true_iff in E as [E E3]. apply andb_true_iff in E as [E1 E2].
    apply Z.eqb_eq in E1. subst n.
    split; [by eapply shift_out_one | lia].
  - exists flag, false. split; [reflexivity|]. split; [|reflexivity].
    split; [discriminate|]. intros [(k & Hk & ->) Hr]. exfalso.
    assert (k < 31) as Hk31.
    { destruct (Z.lt_ge_cases k 31) as [|Hge]; [assumption|].
      pose proof (Z.pow_le_mono_r 2 31 k ltac:(lia) Hge). lia. }
    rewrite shift_out_power in Hn by lia. injection Hn as <-.
    cbn [Z.eqb Pos.eqb andb] in E.
    apply andb_false_iff in E as [E|E]; lia.
Qed.

(** X22. When DBDriver::set_option(int, bool) accepts the option
    with bit k, the new client flags have bit k equal to the argument
    and every other bit as before. *)
Theorem set_option_changes_one_bit (lo hi k : Z) (arg : bool)
    (flag flag' j : Z) :
  0 <= k -> 0 <= j ->
  set_option lo hi (2 ^ k) arg flag = Some (flag', true) ->
  Z.testbit flag' j = (if j =? k then arg else Z.testbit flag j).
Proof.
  intros Hk Hj. unfold set_option.
  destruct (shift_out_zero_bits 33 (2 ^ k)) as [n|]; [|discriminate].
  destruct ((n =? 1) && (lo <=? 2 ^ k) && (2 ^ k <=? hi));
    [|discriminate].
  intros [= <-].
  destruct arg.
  - rewrite Z.lor_spec, Z.pow2_bits_eqb by lia.
    rewrite (Z.eqb_sym k j). destruct (j =? k); [apply orb_true_r|].
    apply orb_false_r.
  - rewrite Z.land_spec, Z.lnot_spec, Z.pow2_bits_eqb by lia.
    rewrite (Z.eqb_sym k j). destruct (j =? k); [apply andb_false_r|].
    apply andb_true_r.
Qed.

Lemma set_option_accepts_single_flags_witness :
  exists flag' ok,
    set_option 1 131072 65536 true 5 = Some (flag', ok) /\
    (ok = true <->
     (exists k, 0 <= k /\ 65536 = 2 ^ k) /\ 1 <= 65536 <= 131072) /\
    (ok = false -> flag' = 5).
Proof.
  apply (set_option_accepts_single_flags 1 131072 65536 true 5). lia.
Defined.

Lemma set_option_changes_one_bit_witness :
  Z.testbit 65541 16 = (if 16 =? 16 then true else Z.testbit 5 16).
Proof.
  apply (set_option_changes_one_bit 1 131072 16 true 5 65541 16);
    [lia | lia | reflexivity].
Defined.
